(** * fwilliamsca/cpp-simd-utils: the SPSC ring buffer and the SIMD kernels

    A shallow embedding of
    - [include/fwilliamsca/memory/ring_buffer.h]  ([SPSCRingBuffer]: the
      member functions as functions on the state of the object, and the two
      hot-path functions once more statement by statement, for one producer
      thread and one consumer thread interleaved), and
    - [include/fwilliamsca/simd/intrinsics.h]     ([MathKernel<>::add] for
      the scalar, AVX2 and AVX-512 variants, and [dot_product]),
    and the properties the specification states about them, followed by
    further properties read off the code.

    Conventions.
    - [size_t] is a 64-bit unsigned integer, modelled as [Z] with the
      wrap-around written out ([wrap]).
    - The heap buffer [buffer_] is a list of slots; a slot is [Some x] when a
      [T] has been constructed in it and not yet destructed, and [None]
      otherwise (raw storage).  It has as many slots as fit the byte count
      the constructor asks for, [sizeof(T) * Capacity] computed on [size_t].
    - Operations return in the [option] monad: [None] stands for C++
      undefined behaviour (an access outside the allocation, or a read of a
      slot that holds no object).  Every theorem about reachable states shows
      that the result is [Some _]. *)

From stdpp Require Import base option list.
From Stdlib Require Import ZArith Lia Floats.

Local Open Scope Z_scope.

(** ** Machine integers *)

Definition size_bits : Z := 64.

Definition wrap (z : Z) : Z := z mod 2 ^ size_bits.

Definition in_size_t (z : Z) : Prop := 0 ≤ z < 2 ^ size_bits.

(** ** include/fwilliamsca/memory/ring_buffer.h *)

Module RingBuffer.

(** The [static_assert] of the class template:
    [(Capacity != 0) && ((Capacity & (Capacity - 1)) == 0)]. *)
Definition capacity_ok (Capacity : Z) : bool :=
  negb (Capacity =? 0) && (Z.land Capacity (wrap (Capacity - 1)) =? 0).

(** A capacity the template can be instantiated with: a [size_t] value that
    passes the [static_assert]. *)
Definition valid_capacity (Capacity : Z) : Prop :=
  in_size_t Capacity ∧ capacity_ok Capacity = true.

(** [(c + 1) & (Capacity - 1)], as written in [try_push], [try_pop] and
    [prefetch_next]. *)
Definition next_index (Capacity c : Z) : Z :=
  Z.land (wrap (c + 1)) (wrap (Capacity - 1)).

Section Channel.

Variable T : Type.

(** [sizeof(T)], in bytes. *)
Variable sizeof_T : Z.

Variable Capacity : Z.

(** The data members: [head_], [tail_] and the storage behind [buffer_]. *)
Record state : Type := State {
  head : Z;
  tail : Z;
  buffer : list (option T)
}.

(** The byte count the constructor asks [posix_memalign] for:
    [sizeof(T) * Capacity], computed on [size_t]. *)
Definition allocation_size : Z := wrap (sizeof_T * Capacity).

(** How many slots of [T] the storage that was asked for holds.  These are
    [Capacity] slots when the product does not wrap, and fewer when it
    does. *)
Definition allocated_slots : Z := allocation_size / sizeof_T.

(** The byte count is the one the class means: [sizeof(T) * Capacity] fits
    [size_t], so the storage holds [Capacity] slots. *)
Definition storage_fits : Prop :=
  0 < sizeof_T ∧ sizeof_T * Capacity < 2 ^ size_bits.

(** The constructor: [posix_memalign] hands out raw storage of
    [allocation_size] bytes, and both indices start at [0].  [rc] is the
    return code of [posix_memalign]; a non-zero code throws
    [std::bad_alloc]. *)
Definition init : state :=
  State 0 0 (replicate (Z.to_nat allocated_slots) None).

Definition construct (rc : Z) : option state :=
  if negb (rc =? 0) then None else Some init.

(** [new (&buffer_[i]) T(...)]: placement construction in slot [i]. *)
Definition construct_at (buf : list (option T)) (i : Z) (x : T)
  : option (list (option T)) :=
  if (0 <=? i) && (i <? Z.of_nat (length buf))
  then Some (<[Z.to_nat i := Some x]> buf)
  else None.

(** [std::move(buffer_[i])] followed by [buffer_[i].~T()]: the object is
    moved out and the slot becomes raw storage again. *)
Definition take_at (buf : list (option T)) (i : Z)
  : option (T * list (option T)) :=
  if 0 <=? i then
    match buf !! Z.to_nat i with
    | Some (Some x) => Some (x, <[Z.to_nat i := None]> buf)
    | _ => None
    end
  else None.

(** [try_push].  The result is the returned [bool], what the caller still
    holds of [item] afterwards ([Some item]: the argument was not touched;
    [None]: it was forwarded to the constructor of the slot, and is moved
    from when it was passed as an rvalue), and the new state. *)
Definition try_push (s : state) (item : T) : option (bool * option T * state) :=
  let current_tail := tail s in
  let next_tail := next_index Capacity current_tail in
  if next_tail =? head s then Some (false, Some item, s)
  else
    buf ← construct_at (buffer s) current_tail item;
    Some (true, None, State (head s) next_tail buf).

(** [try_pop].  [out_item] is the caller's object the item is assigned to;
    the result is the returned [bool], the value of [out_item] afterwards
    and the new state. *)
Definition try_pop (s : state) (out_item : T) : option (bool * T * state) :=
  let current_head := head s in
  if current_head =? tail s then Some (false, out_item, s)
  else
    '(x, buf) ← take_at (buffer s) current_head;
    let next_head := next_index Capacity current_head in
    Some (true, x, State next_head (tail s) buf).

(** The destructor: [free(buffer_)] releases the storage and runs no
    destructor of [T].  The result is the objects that are still constructed
    in the slots at that moment, slot by slot: they are abandoned. *)
Definition destroy (s : state) : list T :=
  omap id (buffer s).

(** [prefetch_next]: the index of the slot whose address is handed to
    [__builtin_prefetch].  The member function is [const] and the prefetch is
    a hint, so the state is left as it is. *)
Definition prefetch_next (s : state) : Z :=
  next_index Capacity (head s).

(** *** Sequences of operations on one channel *)

Inductive op : Type :=
| Push (item : T)
| Pop (out_item : T).

Inductive event : Type :=
| Sent (item : T)
| SendFull (item : T)
| Received (item : T)
| RecvEmpty.

Definition step (s : state) (o : op) : option (event * state) :=
  match o with
  | Push x =>
      '(ok, _, s') ← try_push s x;
      Some (if ok : bool then Sent x else SendFull x, s')
  | Pop out =>
      '(ok, y, s') ← try_pop s out;
      Some (if ok : bool then Received y else RecvEmpty, s')
  end.

Fixpoint run (s : state) (ops : list op) : option (list event * state) :=
  match ops with
  | [] => Some ([], s)
  | o :: ops' =>
      '(e, s') ← step s o;
      '(es, s'') ← run s' ops';
      Some (e :: es, s'')
  end.

(** The items of the successful sends, and of the successful receives, in
    the order they happened. *)
Definition sends (es : list event) : list T :=
  omap (λ e, match e with Sent x => Some x | _ => None end) es.

Definition receives (es : list event) : list T :=
  omap (λ e, match e with Received x => Some x | _ => None end) es.

(** States the channel can be in: whatever a sequence of [try_push] and
    [try_pop] calls leads to from the constructed state. *)
Inductive reachable : state → Prop :=
| reach_init : reachable init
| reach_step s o e s' : reachable s → step s o = Some (e, s') → reachable s'.

(** *** Observations on a state *)

(** Number of slots that hold an object. *)
Definition live_count (s : state) : Z :=
  Z.of_nat (length (filter is_Some (buffer s))).

(** Distance from the read index to the write index, going forward. *)
Definition distance (s : state) : Z := (tail s - head s) mod Capacity.

(** The items waiting in the channel, oldest first: the slots from [head_]
    up to (excluding) [tail_], going round the buffer. *)
Definition pending (s : state) : list T :=
  omap (λ k : nat, mjoin (buffer s !! Z.to_nat ((head s + Z.of_nat k) mod Capacity)))
       (seq 0 (Z.to_nat (distance s))).

(** [represents s q]: the indices are inside the buffer, [q] has as many
    items as the indices are apart, and slot [i] holds the item of [q] at
    the position [i] has when counting from [head_] (and holds no object
    when [q] has no such position). *)
Definition represents (s : state) (q : list T) : Prop :=
  0 ≤ head s < Capacity ∧
  0 ≤ tail s < Capacity ∧
  length (buffer s) = Z.to_nat Capacity ∧
  Z.of_nat (length q) = distance s ∧
  live_count s = Z.of_nat (length q) ∧
  ∀ i, 0 ≤ i < Capacity →
    buffer s !! Z.to_nat i = Some (q !! Z.to_nat ((i - head s) mod Capacity)).

End Channel.

Arguments State {T} head tail buffer.
Arguments head {T} s.
Arguments tail {T} s.
Arguments buffer {T} s.
Arguments construct_at {T} buf i x.
Arguments take_at {T} buf i.
Arguments try_push {T} Capacity s item.
Arguments try_pop {T} Capacity s out_item.
Arguments prefetch_next {T} Capacity s.
Arguments destroy {T} s.
Arguments Push {T} item.
Arguments Pop {T} out_item.
Arguments Sent {T} item.
Arguments SendFull {T} item.
Arguments Received {T} item.
Arguments RecvEmpty {T}.
Arguments step {T} Capacity s o.
Arguments run {T} Capacity s ops.
Arguments sends {T} es.
Arguments receives {T} es.
Arguments reachable {T} sizeof_T Capacity s.
Arguments live_count {T} s.
Arguments distance {T} Capacity s.
Arguments pending {T} Capacity s.
Arguments represents {T} Capacity s q.

(** *** One producer thread and one consumer thread

    The two member functions statement by statement, each access to an
    atomic index or to a slot being one step of the thread that makes it, and
    the steps of the two threads interleaved in any order on one shared
    memory.  (The memory orders of the loads and stores are not part of this
    model: every step sees the latest value of what it reads.) *)

Section Threads.

Variable T : Type.
Variable sizeof_T : Z.
Variable Capacity : Z.

(** Where the producer is inside [try_push(item)]:
    - [PLoaded]: [current_tail] has been loaded;
    - [PRoom]: [next_tail] has been compared with the loaded [head_] and the
      buffer was not full;
    - [PBuilt]: the item has been constructed in [buffer_[current_tail]];
      what is left is the store to [tail_]. *)
Inductive producer : Type :=
| PIdle
| PLoaded (item : T) (current_tail : Z)
| PRoom (item : T) (current_tail next_tail : Z)
| PBuilt (item : T) (current_tail next_tail : Z).

(** Where the consumer is inside [try_pop(out_item)]:
    - [CLoaded]: [current_head] has been loaded;
    - [CData]: it has been compared with the loaded [tail_] and the buffer
      was not empty;
    - [CMoved]: the item has been moved to [out_item] and the slot
      destructed; what is left is the store to [head_]. *)
Inductive consumer : Type :=
| CIdle
| CLoaded (current_head : Z)
| CData (current_head : Z)
| CMoved (current_head : Z) (out_item : T).

(** The shared memory, the two threads, and the calls that have returned so
    far with what they returned, in the order they returned. *)
Record config : Type := Config {
  mem : state T;
  prod : producer;
  cons : consumer;
  log : list (event T)
}.

Definition cinit : config := Config (init T sizeof_T Capacity) PIdle CIdle [].

(** The producer, when it is between calls, enters [try_push(item)] and loads
    [tail_]. *)
Definition call_push (c : config) (item : T) : config :=
  match prod c with
  | PIdle => Config (mem c) (PLoaded item (tail (mem c))) (cons c) (log c)
  | _ => c
  end.

(** The next statement of the producer's call, if it is in one. *)
Definition producer_step (c : config) : option config :=
  match prod c with
  | PIdle => Some c
  | PLoaded item current_tail =>
      let next_tail := next_index Capacity current_tail in
      if next_tail =? head (mem c)
      then Some (Config (mem c) PIdle (cons c) (log c ++ [SendFull item]))
      else Some (Config (mem c) (PRoom item current_tail next_tail) (cons c) (log c))
  | PRoom item current_tail next_tail =>
      buf ← construct_at (buffer (mem c)) current_tail item;
      Some (Config (State (head (mem c)) (tail (mem c)) buf)
              (PBuilt item current_tail next_tail) (cons c) (log c))
  | PBuilt item current_tail next_tail =>
      Some (Config (State (head (mem c)) next_tail (buffer (mem c)))
              PIdle (cons c) (log c ++ [Sent item]))
  end.

(** The consumer, when it is between calls, enters [try_pop] and loads
    [head_]. *)
Definition call_pop (c : config) : config :=
  match cons c with
  | CIdle => Config (mem c) (prod c) (CLoaded (head (mem c))) (log c)
  | _ => c
  end.

(** The next statement of the consumer's call, if it is in one. *)
Definition consumer_step (c : config) : option config :=
  match cons c with
  | CIdle => Some c
  | CLoaded current_head =>
      if current_head =? tail (mem c)
      then Some (Config (mem c) (prod c) CIdle (log c ++ [RecvEmpty]))
      else Some (Config (mem c) (prod c) (CData current_head) (log c))
  | CData current_head =>
      '(x, buf) ← take_at (buffer (mem c)) current_head;
      Some (Config (State (head (mem c)) (tail (mem c)) buf)
              (prod c) (CMoved current_head x) (log c))
  | CMoved current_head x =>
      let next_head := next_index Capacity current_head in
      Some (Config (State next_head (tail (mem c)) (buffer (mem c)))
              (prod c) CIdle (log c ++ [Received x]))
  end.

(** What the scheduler and the two client programs decide: which thread
    moves, and with which item the producer starts its next call. *)
Inductive action : Type :=
| CallPush (item : T)
| StepProducer
| CallPop
| StepConsumer.

Definition cstep (c : config) (a : action) : option config :=
  match a with
  | CallPush item => Some (call_push c item)
  | StepProducer => producer_step c
  | CallPop => Some (call_pop c)
  | StepConsumer => consumer_step c
  end.

Fixpoint crun (c : config) (schedule : list action) : option config :=
  match schedule with
  | [] => Some c
  | a :: schedule' => c' ← cstep c a; crun c' schedule'
  end.

(** The slot each thread is working on while it is between its check and its
    store: the accesses that are not atomic. *)
Definition producer_slot (p : producer) : option Z :=
  match p with
  | PRoom _ current_tail _ | PBuilt _ current_tail _ => Some current_tail
  | _ => None
  end.

Definition consumer_slot (k : consumer) : option Z :=
  match k with
  | CData current_head | CMoved current_head _ => Some current_head
  | _ => None
  end.

(** The memory with the unpublished work of the two threads taken back: the
    slot the producer has constructed but not published is raw again, and
    the slot the consumer has emptied but not released holds its item
    again. *)
Definition settled (c : config) : state T :=
  let buf := buffer (mem c) in
  let buf :=
    match cons c with
    | CMoved current_head x => <[Z.to_nat current_head := Some x]> buf
    | _ => buf
    end in
  let buf :=
    match prod c with
    | PBuilt _ current_tail _ => <[Z.to_nat current_tail := None]> buf
    | _ => buf
    end in
  State (head (mem c)) (tail (mem c)) buf.

(** [linked c q]: with the unpublished work taken back the memory holds the
    queue [q]; the calls that returned so far have sent the items received
    followed by [q]; and each thread's local variables are what the memory
    held when they were loaded and still holds. *)
Definition linked (c : config) (q : list T) : Prop :=
  represents Capacity (settled c) q ∧
  sends (log c) = receives (log c) ++ q ∧
  match prod c with
  | PIdle => True
  | PLoaded _ current_tail => current_tail = tail (mem c)
  | PRoom _ current_tail next_tail =>
      current_tail = tail (mem c) ∧
      next_tail = next_index Capacity current_tail ∧
      Z.of_nat (length q) < Capacity - 1
  | PBuilt x current_tail next_tail =>
      current_tail = tail (mem c) ∧
      next_tail = next_index Capacity current_tail ∧
      Z.of_nat (length q) < Capacity - 1 ∧
      buffer (mem c) !! Z.to_nat current_tail = Some (Some x)
  end ∧
  match cons c with
  | CIdle => True
  | CLoaded current_head => current_head = head (mem c)
  | CData current_head => current_head = head (mem c) ∧ q ≠ []
  | CMoved current_head x =>
      current_head = head (mem c) ∧
      q !! 0%nat = Some x ∧
      buffer (mem c) !! Z.to_nat current_head = Some None
  end.

End Threads.

Arguments PIdle {T}.
Arguments PLoaded {T} item current_tail.
Arguments PRoom {T} item current_tail next_tail.
Arguments PBuilt {T} item current_tail next_tail.
Arguments CIdle {T}.
Arguments CLoaded {T} current_head.
Arguments CData {T} current_head.
Arguments CMoved {T} current_head out_item.
Arguments Config {T} mem prod cons log.
Arguments mem {T} c.
Arguments prod {T} c.
Arguments cons {T} c.
Arguments log {T} c.
Arguments call_push {T} c item.
Arguments producer_step {T} Capacity c.
Arguments call_pop {T} c.
Arguments consumer_step {T} Capacity c.
Arguments CallPush {T} item.
Arguments StepProducer {T}.
Arguments CallPop {T}.
Arguments StepConsumer {T}.
Arguments cstep {T} Capacity c a.
Arguments crun {T} Capacity c schedule.
Arguments producer_slot {T} p.
Arguments consumer_slot {T} k.
Arguments settled {T} c.
Arguments linked {T} Capacity c q.

End RingBuffer.

(** ** include/fwilliamsca/simd/intrinsics.h *)

Module Simd.

(** Results of the kernels: [Undefined] is C++ undefined behaviour (an access
    outside an array, a shift by the width of [int] or more); [OutOfFuel] is
    an artefact of the embedding and never the result of the entry points
    below on arrays of the stated length. *)
Inductive outcome (A : Type) : Type :=
| Ok (a : A)
| Undefined
| OutOfFuel.
Arguments Ok {A} a.
Arguments Undefined {A}.
Arguments OutOfFuel {A}.

#[global] Instance outcome_bind : MBind outcome := λ A B f m,
  match m with
  | Ok a => f a
  | Undefined => Undefined
  | OutOfFuel => OutOfFuel
  end.

(** [double] is IEEE 754 binary64; [a + b] and the lanes of [_mm512_add_pd]
    round to nearest even, as [PrimFloat.add] does. *)
Abbreviation double := float (only parsing).

(** [a[i]] and [out[i] = x] on an array of [double]. *)
Definition rd (a : list double) (i : Z) : outcome double :=
  if 0 <=? i then
    match a !! Z.to_nat i with
    | Some x => Ok x
    | None => Undefined
    end
  else Undefined.

Definition wr (out : list double) (i : Z) (x : double) : outcome (list double) :=
  if (0 <=? i) && (i <? Z.of_nat (length out))
  then Ok (<[Z.to_nat i := x]> out)
  else Undefined.

(** *** [MathKernel<Scalar>::add]

    [for (size_t i = 0; i < n; ++i) out[i] = a[i] + b[i];] *)
Fixpoint scalar_loop (fuel : nat) (a b out : list double) (n i : Z)
  : outcome (list double) :=
  if i <? n then
    match fuel with
    | O => OutOfFuel
    | S fuel' =>
        x ← rd a i;
        y ← rd b i;
        out' ← wr out i (PrimFloat.add x y);
        scalar_loop fuel' a b out' n (wrap (i + 1))
    end
  else Ok out.

Definition scalar_add (a b out : list double) (n : Z) : outcome (list double) :=
  scalar_loop (Z.to_nat n) a b out n 0.

(** *** 512-bit registers and the intrinsics used by the AVX-512 kernel *)

(** A [__m512d]: eight lanes, lane [0] first. *)
Abbreviation m512d := (list float) (only parsing).

Definition lanes : list Z := [0; 1; 2; 3; 4; 5; 6; 7].

Fixpoint collect {A : Type} (ms : list (outcome A)) : outcome (list A) :=
  match ms with
  | [] => Ok []
  | m :: ms' => x ← m; xs ← collect ms'; Ok (x :: xs)
  end.

(** [_mm512_loadu_pd(a + i)] *)
Definition mm512_loadu_pd (a : list double) (i : Z) : outcome m512d :=
  collect ((λ j, rd a (i + j)) <$> lanes).

(** [_mm512_add_pd(v, w)] *)
Definition mm512_add_pd (v w : m512d) : m512d := zip_with PrimFloat.add v w.

(** [_mm512_mask_storeu_pd(out + i, k, v)]: lane [j] is written when bit [j]
    of [k] is set and is not accessed otherwise. *)
Fixpoint store_lanes (out : list double) (i : Z) (k : Z) (j : Z) (v : m512d)
  : outcome (list double) :=
  match v with
  | [] => Ok out
  | x :: v' =>
      out' ← (if Z.testbit k j then wr out (i + j) x else Ok out);
      store_lanes out' i k (j + 1) v'
  end.

Definition mm512_mask_storeu_pd (out : list double) (i : Z) (k : Z) (v : m512d)
  : outcome (list double) :=
  store_lanes out i k 0 v.

(** [_mm512_storeu_pd(out + i, v)]: all eight lanes are written. *)
Definition mm512_storeu_pd (out : list double) (i : Z) (v : m512d)
  : outcome (list double) :=
  store_lanes out i 255 0 v.

(** [_mm512_maskz_loadu_pd(k, a + i)]: lane [j] is loaded when bit [j] of [k]
    is set, and is zero (and not accessed) otherwise. *)
Definition mm512_maskz_loadu_pd (k : Z) (a : list double) (i : Z) : outcome m512d :=
  collect ((λ j, if Z.testbit k j then rd a (i + j) else Ok 0%float) <$> lanes).

(** *** [MathKernel<ISA::AVX512_F>::add] *)

(** One 8-lane group of the unrolled body, at offset [i]. *)
Definition add_group (a b out : list double) (i : Z) : outcome (list double) :=
  a0 ← mm512_loadu_pd a i;
  b0 ← mm512_loadu_pd b i;
  mm512_storeu_pd out i (mm512_add_pd a0 b0).

(** [for (; i + 31 < n; i += 32) { ... }]; the result is the final [i] and
    the output array. *)
Fixpoint avx512_loop (fuel : nat) (a b out : list double) (n i : Z)
  : outcome (Z * list double) :=
  if wrap (i + 31) <? n then
    match fuel with
    | O => OutOfFuel
    | S fuel' =>
        out ← add_group a b out i;
        out ← add_group a b out (i + 8);
        out ← add_group a b out (i + 16);
        out ← add_group a b out (i + 24);
        avx512_loop fuel' a b out n (wrap (i + 32))
    end
  else Ok (i, out).

(** The cleanup after the loop.  [remaining] is a [uint8_t];
    [(1 << remaining) - 1] is computed on the 32-bit [int], and the result is
    converted to the 8-bit [__mmask8], which keeps its low eight bits.  The
    computation is defined for [remaining] up to [30]: a shift by 32 or more
    is undefined, and for [remaining = 31] the subtraction leaves the range
    of [int] (signed overflow). *)
Definition avx512_cleanup (a b out : list double) (n i : Z) : outcome (list double) :=
  if i <? n then
    let remaining := (n - i) mod 2 ^ 8 in
    if remaining <? 31 then
      let mask := (Z.shiftl 1 remaining - 1) mod 2 ^ 8 in
      a_rem ← mm512_maskz_loadu_pd mask a i;
      b_rem ← mm512_maskz_loadu_pd mask b i;
      let res := mm512_add_pd a_rem b_rem in
      mm512_mask_storeu_pd out i mask res
    else Undefined
  else Ok out.

Definition avx512_add (a b out : list double) (n : Z) : outcome (list double) :=
  '(i, out') ← avx512_loop (Z.to_nat n) a b out n 0;
  avx512_cleanup a b out' n i.

(** *** [MathKernel<ISA::AVX2>::add] *)

Abbreviation m256d := (list float) (only parsing).

Definition lanes4 : list Z := [0; 1; 2; 3].

Definition mm256_loadu_pd (a : list double) (i : Z) : outcome m256d :=
  collect ((λ j, rd a (i + j)) <$> lanes4).

Definition mm256_add_pd (v w : m256d) : m256d := zip_with PrimFloat.add v w.

Definition mm256_storeu_pd (out : list double) (i : Z) (v : m256d)
  : outcome (list double) :=
  store_lanes out i 15 0 v.

Fixpoint avx2_loop (fuel : nat) (a b out : list double) (n i : Z)
  : outcome (Z * list double) :=
  if wrap (i + 3) <? n then
    match fuel with
    | O => OutOfFuel
    | S fuel' =>
        a0 ← mm256_loadu_pd a i;
        b0 ← mm256_loadu_pd b i;
        out ← mm256_storeu_pd out i (mm256_add_pd a0 b0);
        avx2_loop fuel' a b out n (wrap (i + 4))
    end
  else Ok (i, out).

Definition avx2_add (a b out : list double) (n : Z) : outcome (list double) :=
  '(i, out') ← avx2_loop (Z.to_nat n) a b out n 0;
  scalar_loop (Z.to_nat n) a b out' n i.

(** *** [MathKernel<ISA::AVX512_F>::dot_product] *)

Section DotProduct.

(** Two intrinsics of the compiler's headers are taken as they come: the lane
    operation of [_mm512_fmadd_pd] (a multiply-add rounded once) and the
    horizontal sum [_mm512_reduce_add_pd]. *)
Variable fmadd : float → float → float → float.
Variable reduce_add : m512d → float.

(** [result + a[i] * b[i]] as the compiled scalar loop evaluates it:
    [tail_muladd result x y].  The compiler may round the product and the sum
    separately or contract them to one fused multiply-add, so this too is
    taken as it comes. *)
Variable tail_muladd : float → float → float → float.

(** [_mm512_setzero_pd()] *)
Definition mm512_setzero_pd : m512d := replicate 8 0%float.

(** [_mm512_fmadd_pd(va, vb, sum)]: lane by lane. *)
Definition mm512_fmadd_pd (va vb sum : m512d) : m512d :=
  zip_with (λ p c, fmadd p.1 p.2 c) (zip va vb) sum.

(** [for (; i + 7 < n; i += 8) { ... sum = _mm512_fmadd_pd(va, vb, sum); }] *)
Fixpoint dot_loop (fuel : nat) (a b : list double) (n i : Z) (sum : m512d)
  : outcome (Z * m512d) :=
  if wrap (i + 7) <? n then
    match fuel with
    | O => OutOfFuel
    | S fuel' =>
        va ← mm512_loadu_pd a i;
        vb ← mm512_loadu_pd b i;
        dot_loop fuel' a b n (wrap (i + 8)) (mm512_fmadd_pd va vb sum)
    end
  else Ok (i, sum).

(** [for (; i < n; ++i) result += a[i] * b[i];] *)
Fixpoint dot_cleanup (fuel : nat) (a b : list double) (n i : Z) (result : double)
  : outcome double :=
  if i <? n then
    match fuel with
    | O => OutOfFuel
    | S fuel' =>
        x ← rd a i;
        y ← rd b i;
        dot_cleanup fuel' a b n (wrap (i + 1)) (tail_muladd result x y)
    end
  else Ok result.

Definition dot_product (a b : list double) (n : Z) : outcome double :=
  '(i, sum) ← dot_loop (Z.to_nat n) a b n 0 mm512_setzero_pd;
  dot_cleanup (Z.to_nat n) a b n i (reduce_add sum).

(** The same computation on lists: the eight lane accumulators after [k]
    blocks of eight elements, and the result for length [n]: the horizontal
    sum of the accumulators after [n / 8] blocks, to which the products of
    the [n mod 8] elements that follow are added one after the other. *)
Definition dot_blocks (a b : list double) (k : nat) : m512d :=
  foldl (λ sum vs, mm512_fmadd_pd vs.1 vs.2 sum) mm512_setzero_pd
    (zip (reshape (replicate k 8%nat) a) (reshape (replicate k 8%nat) b)).

Definition dot_product_spec (a b : list double) (n : nat) : double :=
  let k := (n / 8)%nat in
  foldl (λ r xy, tail_muladd r xy.1 xy.2)
    (reduce_add (dot_blocks a b k))
    (zip (take (n mod 8) (drop (8 * k) a)) (take (n mod 8) (drop (8 * k) b))).

End DotProduct.

(** The specification of the kernels, in the words of the interface:
    [out[i] = a[i] + b[i]] for every [i < n]. *)
Definition elementwise_sum (a b : list double) : list double :=
  zip_with PrimFloat.add a b.

(** The output array once the sums of the first [m] positions, and no
    others, have been stored in it. *)
Definition summed_upto (a b out : list double) (m : nat) : list double :=
  elementwise_sum (take m a) (take m b) ++ drop m out.

(** How many leading positions of [out] the AVX-512 kernel stores to, for a
    length [n]: all of the 32-element blocks, and at most eight positions of
    what is left after them. *)
Definition avx512_stored (n : Z) : Z := 32 * (n / 32) + Z.min (n mod 32) 8.

(** [out'] is [out] with the sums [a[i] + b[i]] stored at the positions below
    [m], and nothing else changed. *)
Definition sums_stored (a b out out' : list double) (m : Z) : Prop :=
  length out' = length out ∧
  (∀ (i : nat) x y, Z.of_nat i < m → a !! i = Some x → b !! i = Some y →
     out' !! i = Some (PrimFloat.add x y)) ∧
  (∀ i : nat, m ≤ Z.of_nat i → out' !! i = out !! i).

End Simd.



(** * Properties *)

Import RingBuffer Simd.

(** ** Capacities and the index mask *)

Lemma wrap_small z : in_size_t z → wrap z = z.
Proof. unfold in_size_t, wrap. intros H. by apply Z.mod_small. Qed.

Lemma wrap_range z : in_size_t (wrap z).
Proof. unfold in_size_t, wrap, size_bits. apply Z.mod_pos_bound. lia. Qed.

Lemma pow2_lt_size k : 0 ≤ k < size_bits → 0 < 2 ^ k < 2 ^ size_bits.
Proof.
  intros [H0 H1]. split.
  - by apply Z.pow_pos_nonneg.
  - apply Z.pow_lt_mono_r; lia.
Qed.

Lemma pow2_divides_size k : 0 ≤ k < size_bits → (2 ^ k | 2 ^ size_bits).
Proof.
  intros [H0 H1]. exists (2 ^ (size_bits - k)).
  rewrite <- Z.pow_add_r by lia. f_equal. lia.
Qed.

(** The mask of a power of two is a run of ones. *)
Lemma mask_pow2 k : 0 ≤ k < size_bits → wrap (2 ^ k - 1) = Z.ones k.
Proof.
  intros Hk. pose proof (pow2_lt_size k Hk).
  rewrite wrap_small by (unfold in_size_t; lia).
  rewrite Z.ones_equiv. lia.
Qed.

(** A capacity passes the [static_assert] exactly when it is a power of
    two, [1] included. *)
Lemma capacity_ok_pow2 N :
  in_size_t N → capacity_ok N = true → ∃ k, 0 ≤ k < size_bits ∧ N = 2 ^ k.
Proof.
  intros HN Hok. unfold capacity_ok in Hok.
  apply andb_true_iff in Hok as [Hnz Hland].
  apply negb_true_iff, Z.eqb_neq in Hnz. apply Z.eqb_eq in Hland.
  assert (HposN : 0 < N) by (unfold in_size_t in HN; lia).
  rewrite wrap_small in Hland by (unfold in_size_t in *; lia).
  pose proof (Z.log2_spec N HposN) as [Hlo Hhi].
  pose proof (Z.log2_nonneg N) as Hk0.
  exists (Z.log2 N). split.
  - split; [done|].
    apply (Z.pow_lt_mono_r_iff 2); unfold in_size_t, size_bits in *; lia.
  - destruct (Z.eq_dec N (2 ^ Z.log2 N)) as [|Hne]; [done|exfalso].
    assert (Hlog : Z.log2 (N - 1) = Z.log2 N).
    { apply Z.log2_unique; lia. }
    assert (Hb1 : Z.testbit N (Z.log2 N) = true) by by apply Z.bit_log2.
    assert (Hb2 : Z.testbit (N - 1) (Z.log2 N) = true).
    { rewrite <- Hlog. apply Z.bit_log2.
      pose proof (Z.pow_pos_nonneg 2 (Z.log2 N)). lia. }
    assert (Hb : Z.testbit (Z.land N (N - 1)) (Z.log2 N) = true).
    { by rewrite Z.land_spec, Hb1, Hb2. }
    rewrite Hland, Z.bits_0 in Hb. discriminate.
Qed.

Lemma pow2_capacity_ok k : 0 ≤ k < size_bits → capacity_ok (2 ^ k) = true.
Proof.
  intros Hk. pose proof (pow2_lt_size k Hk).
  unfold capacity_ok. apply andb_true_iff. split.
  - apply negb_true_iff, Z.eqb_neq. lia.
  - apply Z.eqb_eq. rewrite mask_pow2 by done.
    rewrite Z.land_ones by lia. apply Z_mod_same_full.
Qed.

Lemma valid_capacity_pow2 N :
  valid_capacity N ↔ ∃ k, 0 ≤ k < size_bits ∧ N = 2 ^ k.
Proof.
  split.
  - intros [HN Hok]. by apply capacity_ok_pow2.
  - intros (k & Hk & ->). pose proof (pow2_lt_size k Hk). split.
    + unfold in_size_t. lia.
    + by apply pow2_capacity_ok.
Qed.

Lemma valid_capacity_pos N : valid_capacity N → 1 ≤ N.
Proof.
  intros (k & Hk & ->)%valid_capacity_pow2.
  pose proof (pow2_lt_size k Hk). lia.
Qed.

(** The masked increment is the increment modulo the capacity, whatever
    [size_t] value the index has. *)
Lemma next_index_mod N c :
  valid_capacity N → in_size_t c → next_index N c = (c + 1) mod N.
Proof.
  intros (k & Hk & ->)%valid_capacity_pow2 Hc.
  unfold next_index. rewrite mask_pow2 by done.
  rewrite Z.land_ones by lia. unfold wrap.
  by apply Z.mod_mod_divide, pow2_divides_size.
Qed.

(** On an index below the capacity: step by one, and go back to [0] after
    the last slot. *)
Lemma next_index_cases N c :
  valid_capacity N → 0 ≤ c < N →
  next_index N c = if c + 1 =? N then 0 else c + 1.
Proof.
  intros HN Hc. pose proof HN as [HNr _].
  rewrite next_index_mod; [|done|unfold in_size_t in *; lia].
  destruct (Z.eqb_spec (c + 1) N) as [->|Hne].
  - apply Z_mod_same_full.
  - apply Z.mod_small. lia.
Qed.

(** ** The allocation *)

(** When the byte count does not wrap the storage holds [N] slots. *)
Lemma allocated_slots_exact sz N :
  0 ≤ N → storage_fits sz N → allocated_slots sz N = N.
Proof.
  intros HN [Hsz Hfit]. unfold allocated_slots, allocation_size.
  rewrite wrap_small by (unfold in_size_t; nia).
  rewrite Z.mul_comm. apply Z.div_mul. lia.
Qed.

Lemma init_exact (T : Type) sz N :
  0 ≤ N → storage_fits sz N →
  init T sz N = State 0 0 (replicate (Z.to_nat N) None).
Proof. intros HN Hfit. unfold init. by rewrite allocated_slots_exact. Qed.

(** When it wraps the storage is too small: with 8-byte items and capacity
    [2 ^ 61], which the [static_assert] accepts, [posix_memalign] is asked
    for [0] bytes, and the first [try_push] constructs outside the storage. *)
Lemma wrapped_allocation_overflows (item : Z) :
  valid_capacity (2 ^ 61) ∧
  allocation_size 8 (2 ^ 61) = 0 ∧
  try_push (2 ^ 61) (init Z 8 (2 ^ 61)) item = None.
Proof.
  split; [|split]; [|reflexivity..].
  split; [unfold in_size_t, size_bits; lia|reflexivity].
Qed.

(** ** Index arithmetic inside the buffer *)

Lemma mod_sub_cases N a b :
  0 ≤ a < N → 0 ≤ b < N →
  (a - b) mod N = if b <=? a then a - b else a - b + N.
Proof.
  intros Ha Hb. destruct (Z.leb_spec b a).
  - apply Z.mod_small. lia.
  - symmetry. apply Z.mod_unique with (q := -1); lia.
Qed.

Lemma mod_add_cases N a k :
  0 ≤ a < N → 0 ≤ k < N →
  (a + k) mod N = if a + k <? N then a + k else a + k - N.
Proof.
  intros Ha Hk. destruct (Z.ltb_spec (a + k) N).
  - apply Z.mod_small. lia.
  - symmetry. apply Z.mod_unique with (q := 1); lia.
Qed.

(** ** Counting the slots that hold an object *)

Section Slots.

Context {T : Type}.
Implicit Types (buf : list (option T)) (x : T).

Lemma live_cons_some x buf :
  length (filter is_Some (Some x :: buf)) = S (length (filter is_Some buf)).
Proof. rewrite filter_cons_True; [done|by eexists]. Qed.

Lemma live_cons_none buf :
  length (filter is_Some (@None T :: buf)) = length (filter is_Some buf).
Proof. rewrite filter_cons_False; [done|]. by intros [? ?]. Qed.

Lemma live_replicate_none n :
  length (filter is_Some (replicate n (@None T))) = 0%nat.
Proof.
  induction n as [|n IH]; [done|]. simpl. by rewrite live_cons_none.
Qed.

Lemma live_insert_some buf i x :
  buf !! i = Some None →
  length (filter is_Some (<[i := Some x]> buf))
  = S (length (filter is_Some buf)).
Proof.
  revert i. induction buf as [|c buf IH]; intros [|i] Hi; simplify_eq/=.
  - by rewrite ?live_cons_some, ?live_cons_none.
  - destruct c as [y|]; rewrite ?live_cons_some, ?live_cons_none;
      simpl; by rewrite IH.
Qed.

Lemma live_insert_none buf i x :
  buf !! i = Some (Some x) →
  S (length (filter is_Some (<[i := None]> buf)))
  = length (filter is_Some buf).
Proof.
  revert i. induction buf as [|c buf IH]; intros [|i] Hi; simplify_eq/=.
  - by rewrite ?live_cons_some, ?live_cons_none.
  - destruct c as [y|]; rewrite ?live_cons_some, ?live_cons_none;
      simpl; by rewrite IH.
Qed.

(** Reading a list back position by position. *)
Lemma omap_lookup_seq (q : list T) (f : nat → option T) :
  (∀ k, (k < length q)%nat → f k = q !! k) →
  omap f (seq 0 (length q)) = q.
Proof.
  induction q as [|x q IH] using rev_ind; intros Hf; [done|].
  rewrite length_app in *. simpl in *.
  rewrite Nat.add_1_r, seq_S, omap_app. simpl.
  rewrite IH.
  - rewrite Hf by lia. by rewrite list_lookup_middle.
  - intros k Hk. rewrite Hf by lia. by rewrite lookup_app_l.
Qed.

End Slots.

(** ** The buffer as a queue *)

Section Queue.

Context {T : Type}.
Variable N : Z.
Hypothesis HN : valid_capacity N.
Variable sz : Z.
Hypothesis Hsz : storage_fits sz N.

Implicit Types (s : state T) (q : list T) (x : T).

Lemma represents_init : represents N (init T sz N) [].
Proof.
  pose proof (valid_capacity_pos N HN).
  rewrite init_exact by (done || lia).
  unfold represents, distance, live_count. simpl.
  rewrite length_replicate, live_replicate_none, Z.sub_diag, Z.mod_0_l by lia.
  repeat split; try lia.
  intros i Hi. apply lookup_replicate_2. lia.
Qed.

Lemma represents_distance s q :
  represents N s q → 0 ≤ distance N s ≤ N - 1.
Proof.
  intros (Hh & Ht & _). unfold distance.
  pose proof (Z.mod_pos_bound (tail s - head s) N). lia.
Qed.

(** [try_push] on a state that holds [q]: it fails, changing nothing, when
    [q] has [N - 1] items, and appends the item otherwise. *)
Lemma try_push_spec s q x :
  represents N s q →
  (Z.of_nat (length q) = N - 1 ∧
   next_index N (tail s) = head s ∧
   try_push N s x = Some (false, Some x, s))
  ∨ (Z.of_nat (length q) < N - 1 ∧
     ∃ s', try_push N s x = Some (true, None, s') ∧
           tail s' ≠ head s' ∧
           represents N s' (q ++ [x])).
Proof.
  intros (Hh & Ht & Hlen & Hq & Hlive & Hsl).
  unfold try_push. rewrite (next_index_cases N (tail s)) by done.
  unfold distance in Hq. rewrite mod_sub_cases in Hq by done.
  destruct (Z.eqb_spec (if tail s + 1 =? N then 0 else tail s + 1) (head s))
    as [Hfull|Hfree].
  - left. split; [|done].
    destruct (Z.eqb_spec (tail s + 1) N), (Z.leb_spec (head s) (tail s)); lia.
  - right.
    assert (Hlt : Z.of_nat (length q) < N - 1).
    { destruct (Z.eqb_spec (tail s + 1) N), (Z.leb_spec (head s) (tail s)); lia. }
    split; [done|].
    unfold construct_at.
    replace ((0 <=? tail s) && (tail s <? Z.of_nat (length (buffer s))))
      with true by (symmetry; apply andb_true_iff; lia).
    simpl. eexists. split; [reflexivity|]. split; [done|].
    assert (Hslot : buffer s !! Z.to_nat (tail s) = Some None).
    { rewrite Hsl by done. f_equal. apply lookup_ge_None_2.
      rewrite mod_sub_cases by done. lia. }
    unfold represents, distance, live_count. simpl.
    rewrite length_insert, length_app, (live_insert_some _ _ _ Hslot).
    simpl. repeat split; try lia.
    + destruct (Z.eqb_spec (tail s + 1) N); lia.
    + destruct (Z.eqb_spec (tail s + 1) N); lia.
    + rewrite mod_sub_cases
        by (destruct (Z.eqb_spec (tail s + 1) N); lia).
      destruct (Z.eqb_spec (tail s + 1) N), (Z.leb_spec (head s) (tail s));
        repeat case_match; lia.
    + unfold live_count in Hlive. lia.
    + intros i Hi. pose proof (Hsl i Hi) as Hi'.
      rewrite mod_sub_cases in Hi' |- * by done.
      destruct (Z.eq_dec i (tail s)) as [->|Hne].
      * rewrite list_lookup_insert_eq by lia. f_equal.
        replace (Z.to_nat _) with (length q) by lia.
        by rewrite list_lookup_middle.
      * rewrite list_lookup_insert_ne by lia. rewrite Hi'. f_equal.
        set (k := Z.to_nat _).
        destruct (decide (k < length q)%nat) as [Hk|Hk].
        -- by rewrite lookup_app_l.
        -- rewrite !lookup_ge_None_2; [done| |lia].
           rewrite length_app. simpl. subst k.
           destruct (Z.leb_spec (head s) i), (Z.leb_spec (head s) (tail s)); lia.
Qed.

(** [try_pop] on a state that holds [q]: it fails, changing nothing, when
    [q] is empty, and hands out the first item of [q] otherwise. *)
Lemma try_pop_spec s q out :
  represents N s q →
  match q with
  | [] => head s = tail s ∧ try_pop N s out = Some (false, out, s)
  | x :: q' =>
      head s ≠ tail s ∧
      ∃ s', try_pop N s out = Some (true, x, s') ∧ represents N s' q'
  end.
Proof.
  intros (Hh & Ht & Hlen & Hq & Hlive & Hsl).
  unfold try_pop.
  unfold distance in Hq. rewrite mod_sub_cases in Hq by done.
  destruct q as [|x q'].
  - assert (head s = tail s) as Heq
      by (simpl in Hq; destruct (Z.leb_spec (head s) (tail s)); lia).
    split; [done|]. by rewrite Heq, Z.eqb_refl.
  - simpl in Hq.
    assert (head s ≠ tail s) as Hneq
      by (destruct (Z.leb_spec (head s) (tail s)); lia).
    split; [done|].
    destruct (Z.eqb_spec (head s) (tail s)) as [|_]; [done|].
    assert (Hslot : buffer s !! Z.to_nat (head s) = Some (Some x)).
    { rewrite Hsl by done. by rewrite Z.sub_diag, Z.mod_0_l by lia. }
    unfold take_at.
    destruct (Z.leb_spec 0 (head s)); [|lia].
    rewrite Hslot. simpl. eexists. split; [reflexivity|].
    rewrite (next_index_cases N (head s)) by done.
    pose proof (live_insert_none _ _ _ Hslot) as Hcount.
    unfold represents, distance, live_count in *. simpl in *.
    rewrite length_insert.
    repeat split; try lia.
    + destruct (Z.eqb_spec (head s + 1) N); lia.
    + destruct (Z.eqb_spec (head s + 1) N); lia.
    + rewrite mod_sub_cases
        by (destruct (Z.eqb_spec (head s + 1) N); lia).
      destruct (Z.eqb_spec (head s + 1) N), (Z.leb_spec (head s) (tail s));
        repeat case_match; lia.
    + intros i Hi. pose proof (Hsl i Hi) as Hi'.
      rewrite mod_sub_cases in Hi'
        by done.
      rewrite mod_sub_cases
        by (destruct (Z.eqb_spec (head s + 1) N); lia).
      destruct (Z.eq_dec i (head s)) as [->|Hne].
      * rewrite list_lookup_insert_eq by lia. f_equal. symmetry.
        apply lookup_ge_None_2.
        destruct (Z.eqb_spec (head s + 1) N), (Z.leb_spec (head s) (tail s));
          repeat case_match; lia.
      * rewrite list_lookup_insert_ne by lia. rewrite Hi'. f_equal.
        match goal with
        | |- (_ :: _) !! ?a = _ !! ?b => replace a with (S b)
        end; [done|].
        destruct (Z.eqb_spec (head s + 1) N), (Z.leb_spec (head s) i);
          repeat case_match; lia.
Qed.

End Queue.

(** ** Sequences of operations *)

Section Traces.

Context {T : Type}.
Variable N : Z.
Hypothesis HN : valid_capacity N.
Variable sz : Z.
Hypothesis Hsz : storage_fits sz N.

Implicit Types (s : state T) (q : list T) (x : T) (o : op T)
  (es : list (event T)).

Lemma represents_pending s q : represents N s q → pending N s = q.
Proof.
  intros (Hh & Ht & Hlen & Hq & Hlive & Hsl).
  unfold pending. rewrite <- Hq, Nat2Z.id.
  apply omap_lookup_seq. intros k Hk.
  assert (Hkd : Z.of_nat k < distance N s) by lia.
  unfold distance in Hkd.
  pose proof (Z.mod_pos_bound (tail s - head s) N ltac:(lia)).
  pose proof (Z.mod_pos_bound (head s + Z.of_nat k) N ltac:(lia)) as Hi.
  rewrite (Hsl _ Hi). simpl. f_equal.
  rewrite mod_add_cases in * by lia.
  rewrite mod_sub_cases by (case_match; lia).
  repeat case_match; lia.
Qed.

Lemma represents_empty_iff s q : represents N s q → (head s = tail s ↔ q = []).
Proof.
  intros (Hh & Ht & Hlen & Hq & Hlive & Hsl).
  unfold distance in Hq. rewrite mod_sub_cases in Hq by done.
  destruct q; simpl in Hq; split; intros; try done;
    destruct (Z.leb_spec (head s) (tail s)); lia.
Qed.

Lemma sends_cons e es : sends (e :: es) = sends [e] ++ sends es.
Proof. unfold sends. simpl. by destruct e. Qed.

Lemma receives_cons e es : receives (e :: es) = receives [e] ++ receives es.
Proof. unfold receives. simpl. by destruct e. Qed.

Lemma run_cons_ok s o ops e s1 es s2 :
  step N s o = Some (e, s1) →
  run N s1 ops = Some (es, s2) →
  run N s (o :: ops) = Some (e :: es, s2).
Proof. intros Hstep Hrun. simpl. rewrite Hstep. simpl. by rewrite Hrun. Qed.

Lemma step_push_ok s x c s1 :
  try_push N s x = Some (true, c, s1) → step N s (Push x) = Some (Sent x, s1).
Proof. intros Hpush. simpl. by rewrite Hpush. Qed.

(** One operation on a state that holds [q]: it is defined, and the event
    says how the queue changed. *)
Lemma step_spec s q o :
  represents N s q →
  ∃ e s' q', step N s o = Some (e, s') ∧ represents N s' q' ∧
             q ++ sends [e] = receives [e] ++ q'.
Proof.
  intros Hr. destruct o as [x|out]; simpl.
  - destruct (try_push_spec N HN s q x Hr)
      as [(_ & _ & ->)|(_ & s' & -> & _ & Hr')]; simpl.
    + exists (SendFull x), s, q. by rewrite app_nil_r.
    + by exists (Sent x), s', (q ++ [x]).
  - pose proof (try_pop_spec N HN s q out Hr) as Hpop.
    destruct q as [|x q'].
    + destruct Hpop as [_ ->]. simpl. by exists RecvEmpty, s, [].
    + destruct Hpop as (_ & s' & -> & Hr'). simpl.
      exists (Received x), s', q'. by rewrite app_nil_r.
Qed.

Lemma run_spec ops : ∀ s q,
  represents N s q →
  ∃ es s' q', run N s ops = Some (es, s') ∧ represents N s' q' ∧
              q ++ sends es = receives es ++ q'.
Proof.
  induction ops as [|o ops IH]; intros s q Hr.
  - exists [], s, q. by rewrite app_nil_r.
  - destruct (step_spec s q o Hr) as (e & s1 & q1 & Hstep & Hr1 & Hq1).
    destruct (IH s1 q1 Hr1) as (es & s2 & q2 & Hrun & Hr2 & Hq2).
    exists (e :: es), s2, q2.
    split; [by apply run_cons_ok with s1|].
    split; [done|].
    rewrite sends_cons, receives_cons, app_assoc, Hq1, <- !app_assoc.
    by rewrite Hq2.
Qed.

Lemma reachable_represents s : reachable sz N s → ∃ q, represents N s q.
Proof.
  induction 1 as [|s o e s' _ [q Hr] Hstep].
  - exists []. by apply represents_init.
  - destruct (step_spec s q o Hr) as (e' & s1 & q1 & Hstep' & Hr1 & _).
    exists q1. congruence.
Qed.

(** No call on a reachable state is undefined. *)
Lemma reachable_step_defined s o :
  reachable sz N s → ∃ e s', step N s o = Some (e, s') ∧ reachable sz N s'.
Proof.
  intros Hs. destruct (reachable_represents s Hs) as [q Hr].
  destruct (step_spec s q o Hr) as (e & s' & _ & Hstep & _).
  exists e, s'. split; [done|]. by apply reach_step with s o e.
Qed.

Lemma run_reachable ops : ∀ s es s',
  reachable sz N s → run N s ops = Some (es, s') → reachable sz N s'.
Proof.
  induction ops as [|o ops IH]; intros s es s' Hs Hrun; simpl in Hrun.
  - by simplify_eq.
  - destruct (step N s o) as [[e s1]|] eqn:Hstep; [|done]. simpl in Hrun.
    destruct (run N s1 ops) as [[es1 s2]|] eqn:Hrun1; [|done].
    simplify_eq/=. eapply IH; [|done]. by eapply reach_step.
Qed.

End Traces.

(** ** Filling the channel *)

Section Filling.

Context {T : Type}.
Variable N : Z.
Hypothesis HN : valid_capacity N.
Variable sz : Z.
Hypothesis Hsz : storage_fits sz N.

Implicit Types (s : state T) (q xs : list T).

(** As long as fewer than [N - 1] items are waiting, every [try_push] of a
    run of pushes succeeds. *)
Lemma run_pushes xs : ∀ s q,
  represents N s q →
  Z.of_nat (length q) + Z.of_nat (length xs) ≤ N - 1 →
  ∃ s', run N s (Push <$> xs) = Some (Sent <$> xs, s') ∧
        represents N s' (q ++ xs).
Proof.
  induction xs as [|x xs IH]; intros s q Hr Hlen.
  - exists s. by rewrite app_nil_r.
  - simpl in Hlen.
    destruct (try_push_spec N HN s q x Hr)
      as [(Hfull & _)|(_ & s1 & Hpush & _ & Hr1)]; [lia|].
    destruct (IH s1 (q ++ [x]) Hr1) as (s2 & Hrun & Hr2).
    { rewrite length_app. simpl. lia. }
    exists s2. split.
    + rewrite !fmap_cons. apply run_cons_ok with s1; [|done].
      by apply step_push_ok with None.
    + by rewrite <- app_assoc in Hr2.
Qed.

End Filling.

(** ** The claims of the specification: the channel *)

(** C1.  FIFO order.  Whatever sequence of [try_push] and [try_pop] calls is
    made on a freshly constructed channel (whose storage size fits
    [size_t]), every call is defined, and the items of the successful sends
    are the items of the successful receives, in the same order, followed by
    the items still waiting in the buffer: no item is delivered twice and
    none is skipped.  Once the channel is empty again the receives are
    exactly the sends, and a further successful [try_pop] returns the oldest
    item not received so far.  The calls do deliver: after any such sequence
    a [try_pop] succeeds, with the oldest item sent and not yet received,
    whenever there is one, and fails only when every item sent has been
    received; and a [try_push] succeeds, and its item becomes the last one
    waiting, whenever fewer than [N - 1] items are waiting. *)
Theorem fifo_order (T : Type) (sz N : Z) (ops : list (op T)) :
  valid_capacity N →
  storage_fits sz N →
  ∃ es s,
    run N (init T sz N) ops = Some (es, s) ∧
    sends es = receives es ++ pending N s ∧
    (head s = tail s → receives es = sends es) ∧
    (∀ out x s', try_pop N s out = Some (true, x, s') →
       sends es !! length (receives es) = Some x) ∧
    (∀ out,
       match sends es !! length (receives es) with
       | Some x => ∃ s', try_pop N s out = Some (true, x, s') ∧
                         pending N s = x :: pending N s'
       | None => try_pop N s out = Some (false, out, s) ∧ receives es = sends es
       end) ∧
    (∀ x, Z.of_nat (length (pending N s)) < N - 1 →
       ∃ s', try_push N s x = Some (true, None, s') ∧
             pending N s' = pending N s ++ [x]).
Proof.
  intros HN Hsz.
  destruct (run_spec N HN ops (init T sz N) [] (represents_init N HN sz Hsz))
    as (es & s & q & Hrun & Hr & Hq).
  simpl in Hq. exists es, s. split; [done|].
  rewrite (represents_pending N s q Hr). split; [done|]. split; [|split; [|split]].
  - intros Hempty. apply (represents_empty_iff N s q Hr) in Hempty.
    subst q. by rewrite app_nil_r in Hq.
  - intros out x s' Hpop.
    pose proof (try_pop_spec N HN s q out Hr) as Hspec.
    destruct q as [|y q'].
    + destruct Hspec as [_ Hfail]. congruence.
    + destruct Hspec as (_ & s1 & Hok & _).
      rewrite Hq. assert (x = y) as -> by congruence.
      by rewrite list_lookup_middle.
  - intros out. pose proof (try_pop_spec N HN s q out Hr) as Hspec.
    rewrite Hq. destruct q as [|y q'].
    + rewrite app_nil_r, lookup_ge_None_2 by done.
      destruct Hspec as [_ Hfail]. split; [done|]. by rewrite app_nil_r in Hq.
    + rewrite list_lookup_middle by done.
      destruct Hspec as (_ & s1 & Hok & Hr1). exists s1. split; [done|].
      by rewrite (represents_pending N s1 q' Hr1).
  - intros x Hlt.
    destruct (try_push_spec N HN s q x Hr)
      as [(Hfull & _)|(_ & s1 & Hpush & _ & Hr1)]; [lia|].
    exists s1. split; [done|]. by rewrite (represents_pending N s1 _ Hr1).
Qed.

Lemma fifo_order_witness :
  valid_capacity 4 ∧ storage_fits 8 4 ∧
  ∃ es s,
    run 4 (init Z 8 4) [Push 7; Push 8; Pop 0; Push 9] = Some (es, s) ∧
    sends es = receives es ++ pending 4 s ∧
    (head s = tail s → receives es = sends es) ∧
    (∀ out x s', try_pop 4 s out = Some (true, x, s') →
       sends es !! length (receives es) = Some x) ∧
    (∀ out,
       match sends es !! length (receives es) with
       | Some x => ∃ s', try_pop 4 s out = Some (true, x, s') ∧
                         pending 4 s = x :: pending 4 s'
       | None => try_pop 4 s out = Some (false, out, s) ∧ receives es = sends es
       end) ∧
    (∀ x, Z.of_nat (length (pending 4 s)) < 4 - 1 →
       ∃ s', try_push 4 s x = Some (true, None, s') ∧
             pending 4 s' = pending 4 s ++ [x]).
Proof.
  assert (H4 : valid_capacity 4).
  { split; [unfold in_size_t, size_bits; lia|reflexivity]. }
  assert (Hfit : storage_fits 8 4).
  { unfold storage_fits, size_bits. lia. }
  split; [exact H4|]. split; [exact Hfit|].
  exact (fifo_order Z 8 4 [Push 7; Push 8; Pop 0; Push 9] H4 Hfit).
Defined.

(** C2.  Empty/full boundary.  For every capacity [N] the class accepts:
    [try_pop] on the fresh channel fails; [N - 1] pushes in a row all
    succeed; the next [try_push] fails and leaves the state as it is; and a
    [try_push] that follows a successful [try_pop] succeeds again.  (For
    [N ≥ 2] that [try_pop] does succeed, with the first item pushed.)
    (For a channel whose storage size [sizeof(T) * N] fits [size_t].) *)
Theorem capacity_boundary (T : Type) (sz N : Z) (xs : list T) (x y out : T) :
  valid_capacity N →
  storage_fits sz N →
  Z.of_nat (length xs) = N - 1 →
  try_pop N (init T sz N) out = Some (false, out, init T sz N) ∧
  ∃ s,
    run N (init T sz N) (Push <$> xs) = Some (Sent <$> xs, s) ∧
    try_push N s x = Some (false, Some x, s) ∧
    (∀ r s1, try_pop N s out = Some (true, r, s1) →
       ∃ s2, try_push N s1 y = Some (true, None, s2)) ∧
    (2 ≤ N → ∃ r s1, try_pop N s out = Some (true, r, s1) ∧ xs !! 0%nat = Some r).
Proof.
  intros HN Hsz Hlen. split.
  - by destruct (try_pop_spec N HN _ [] out (represents_init N HN sz Hsz)).
  - destruct (run_pushes N HN xs _ [] (represents_init N HN sz Hsz)) as (s & Hrun & Hr).
    { simpl. lia. }
    simpl in Hr. exists s. split; [done|].
    assert (Hpop : ∀ r s1, try_pop N s out = Some (true, r, s1) →
              xs !! 0%nat = Some r ∧ represents N s1 (drop 1 xs)).
    { intros r s1 Hok. pose proof (try_pop_spec N HN s xs out Hr) as Hspec.
      destruct xs as [|r' xs'].
      - destruct Hspec as [_ Hfail]. congruence.
      - destruct Hspec as (_ & s1' & Hok' & Hr1). simpl. rewrite drop_0.
        by simplify_eq. }
    split; [|split].
    + destruct (try_push_spec N HN s xs x Hr)
        as [(_ & _ & Hfail)|(Hlt & _)]; [done|lia].
    + intros r s1 Hok. destruct (Hpop r s1 Hok) as [Hhd Hr1].
      destruct (try_push_spec N HN s1 _ y Hr1)
        as [(Hfull & _)|(_ & s2 & Hpush & _)]; [|by exists s2].
      rewrite length_drop in Hfull. destruct xs; [done|]. simpl in *. lia.
    + intros H2. pose proof (try_pop_spec N HN s xs out Hr) as Hspec.
      destruct xs as [|r xs']; [simpl in Hlen; lia|].
      destruct Hspec as (_ & s1 & Hok & _). by exists r, s1.
Qed.

Lemma capacity_boundary_witness :
  valid_capacity 4 ∧ storage_fits 8 4 ∧ Z.of_nat (length [1; 2; 3]) = 4 - 1 ∧
  try_pop 4 (init Z 8 4) 0 = Some (false, 0, init Z 8 4) ∧
  ∃ s,
    run 4 (init Z 8 4) (Push <$> [1; 2; 3]) = Some (Sent <$> [1; 2; 3], s) ∧
    try_push 4 s 4 = Some (false, Some 4, s) ∧
    (∀ r s1, try_pop 4 s 0 = Some (true, r, s1) →
       ∃ s2, try_push 4 s1 5 = Some (true, None, s2)) ∧
    (2 ≤ 4 → ∃ r s1, try_pop 4 s 0 = Some (true, r, s1) ∧ [1; 2; 3] !! 0%nat = Some r).
Proof.
  assert (H4 : valid_capacity 4).
  { split; [unfold in_size_t, size_bits; lia|reflexivity]. }
  assert (Hfit : storage_fits 8 4).
  { unfold storage_fits, size_bits. lia. }
  split; [exact H4|]. split; [exact Hfit|]. split; [reflexivity|].
  exact (capacity_boundary Z 8 4 [1; 2; 3] 4 5 0 H4 Hfit eq_refl).
Defined.

(** C3.  A full channel refuses the item and an empty channel hands out
    nothing, and neither changes anything.  In any state whatsoever: when
    the next write position equals the read index, [try_push] returns
    [false], both indices and all slots are as before and the caller still
    holds the item; when the read index equals the write index, [try_pop]
    returns [false], the state is as before and [out_item] is untouched. *)
Theorem full_and_empty_change_nothing
    (T : Type) (N : Z) (s_full s_empty : state T) (item out : T) :
  (next_index N (tail s_full) = head s_full →
     try_push N s_full item = Some (false, Some item, s_full)) ∧
  (head s_empty = tail s_empty →
     try_pop N s_empty out = Some (false, out, s_empty)).
Proof.
  split; intros Heq.
  - unfold try_push. by rewrite Heq, Z.eqb_refl.
  - unfold try_pop. by rewrite Heq, Z.eqb_refl.
Qed.

Lemma full_and_empty_change_nothing_witness :
  let s_full := State 1 0 [None; Some 7; Some 8; Some 9] in
  let s_empty := State 2 2 [None; None; None; None] in
  (next_index 4 (tail s_full) = head s_full ∧
   try_push 4 s_full 5 = Some (false, Some 5, s_full)) ∧
  (head s_empty = tail s_empty ∧
   try_pop 4 s_empty 0 = Some (false, 0, s_empty)).
Proof.
  intros s_full s_empty.
  pose proof (full_and_empty_change_nothing Z 4 s_full s_empty 5 0) as [Hf He].
  split.
  - split; [reflexivity|]. apply Hf. reflexivity.
  - split; [reflexivity|]. apply He. reflexivity.
Defined.

(** C5 as stated fails.  With capacity [4] and one item ([1]) waiting, which
    is a reachable state with free slots, [try_push 2] succeeds and the
    [try_pop] that follows succeeds with [1], the older item, not with [2]. *)
Lemma push_then_pop_returns_oldest :
  let s := State 0 1 [Some 1; None; None; None] in
  valid_capacity 4 ∧ storage_fits 8 4 ∧ reachable 8 4 s ∧
  ∃ s1 s2,
    try_push 4 s 2 = Some (true, None, s1) ∧
    try_pop 4 s1 0 = Some (true, 1, s2) ∧
    1 ≠ 2.
Proof.
  intros s. split; [|split; [|split]].
  - split; [unfold in_size_t, size_bits; lia|reflexivity].
  - unfold storage_fits, size_bits. lia.
  - apply (reach_step Z 8 4 (init Z 8 4) (Push 1) (Sent 1) s);
      [apply reach_init|reflexivity].
  - eexists _, _. split; [reflexivity|]. split; [reflexivity|lia].
Qed.

(** C5, amended.  Round trip.  In a reachable state, a [try_push] of [x]
    that succeeds is followed by a [try_pop] that succeeds and returns the
    item that is then the oldest: the first of the items that were waiting,
    or [x] itself when none was.  So on a channel that is empty before the
    send (read index = write index) the item received is [x].
    (For a channel whose storage size [sizeof(T) * N] fits [size_t].) *)
Theorem round_trip (T : Type) (sz N : Z) (s s1 : state T) (x out : T) (c : option T) :
  valid_capacity N →
  storage_fits sz N →
  reachable sz N s →
  try_push N s x = Some (true, c, s1) →
  (∃ s2, try_pop N s1 out = Some (true, default x (pending N s !! 0%nat), s2)) ∧
  (head s = tail s → ∃ s2, try_pop N s1 out = Some (true, x, s2)).
Proof.
  intros HN Hsz Hs Hpush.
  destruct (reachable_represents N HN sz Hsz s Hs) as [q Hr].
  rewrite (represents_pending N s q Hr).
  destruct (try_push_spec N HN s q x Hr)
    as [(_ & _ & Hfail)|(_ & s1' & Hok & _ & Hr1)]; [congruence|].
  assert (s1' = s1) as -> by congruence.
  pose proof (try_pop_spec N HN s1 (q ++ [x]) out Hr1) as Hpop.
  split.
  - destruct q as [|y q']; simpl in *;
      destruct Hpop as (_ & s2 & Hpop & _); by exists s2.
  - intros Hempty. apply (represents_empty_iff N s q Hr) in Hempty.
    subst q. simpl in Hpop. destruct Hpop as (_ & s2 & Hpop & _). by exists s2.
Qed.

Lemma round_trip_witness :
  let s := State 1 1 [None; None; None; None] in
  let s1 := State 1 2 [None; Some 5; None; None] in
  valid_capacity 4 ∧ storage_fits 8 4 ∧ reachable 8 4 s ∧
  try_push 4 s 5 = Some (true, None, s1) ∧
  (∃ s2, try_pop 4 s1 0 = Some (true, default 5 (pending 4 s !! 0%nat), s2)) ∧
  (head s = tail s → ∃ s2, try_pop 4 s1 0 = Some (true, 5, s2)).
Proof.
  intros s s1.
  assert (H4 : valid_capacity 4).
  { split; [unfold in_size_t, size_bits; lia|reflexivity]. }
  assert (Hfit : storage_fits 8 4).
  { unfold storage_fits, size_bits. lia. }
  assert (Hs : reachable 8 4 s).
  { apply (reach_step Z 8 4 (State 0 1 [Some 1; None; None; None])
             (Pop 0) (Received 1) s); [|reflexivity].
    apply (reach_step Z 8 4 (init Z 8 4) (Push 1) (Sent 1)); [|reflexivity].
    apply reach_init. }
  split; [exact H4|]. split; [exact Hfit|]. split; [exact Hs|]. split; [reflexivity|].
  exact (round_trip Z 8 4 s s1 5 0 None H4 Hfit Hs eq_refl).
Defined.

(** C6.  The one-slot-reserved invariant.  In every state reachable from the
    constructed one, both indices are inside the buffer, the forward distance
    from the read index to the write index is between [0] and [N - 1], it is
    the number of slots holding an object, so at most [N - 1] items are live,
    and a successful [try_push] never moves the write index onto the read
    index.
    (For a channel whose storage size [sizeof(T) * N] fits [size_t].) *)
Theorem cursor_distance_invariant (T : Type) (sz N : Z) (s : state T) :
  valid_capacity N →
  storage_fits sz N →
  reachable sz N s →
  0 ≤ head s < N ∧ 0 ≤ tail s < N ∧
  0 ≤ (tail s - head s) mod N ≤ N - 1 ∧
  live_count s = (tail s - head s) mod N ∧
  live_count s ≤ N - 1 ∧
  (∀ x c s', try_push N s x = Some (true, c, s') → tail s' ≠ head s').
Proof.
  intros HN Hsz Hs.
  destruct (reachable_represents N HN sz Hsz s Hs) as [q Hr].
  pose proof (represents_distance N s q Hr) as Hd.
  pose proof Hr as (Hh & Ht & _ & Hq & Hlive & _).
  unfold distance in *.
  repeat split; try lia.
  intros x c s' Hpush.
  destruct (try_push_spec N HN s q x Hr)
    as [(_ & _ & Hfail)|(_ & s1 & Hok & Hne & _)]; congruence.
Qed.

Lemma cursor_distance_invariant_witness :
  let s := State 0 3 [Some 1; Some 2; Some 3; None] in
  valid_capacity 4 ∧ storage_fits 8 4 ∧ reachable 8 4 s ∧
  0 ≤ head s < 4 ∧ 0 ≤ tail s < 4 ∧
  0 ≤ (tail s - head s) mod 4 ≤ 4 - 1 ∧
  live_count s = (tail s - head s) mod 4 ∧
  live_count s ≤ 4 - 1 ∧
  (∀ x c s', try_push 4 s x = Some (true, c, s') → tail s' ≠ head s').
Proof.
  intros s.
  assert (H4 : valid_capacity 4).
  { split; [unfold in_size_t, size_bits; lia|reflexivity]. }
  assert (Hfit : storage_fits 8 4).
  { unfold storage_fits, size_bits. lia. }
  assert (Hs : reachable 8 4 s).
  { apply (reach_step Z 8 4 (State 0 2 [Some 1; Some 2; None; None])
             (Push 3) (Sent 3) s); [|reflexivity].
    apply (reach_step Z 8 4 (State 0 1 [Some 1; None; None; None])
             (Push 2) (Sent 2)); [|reflexivity].
    apply (reach_step Z 8 4 (init Z 8 4) (Push 1) (Sent 1)); [|reflexivity].
    apply reach_init. }
  split; [exact H4|]. split; [exact Hfit|]. split; [exact Hs|].
  exact (cursor_distance_invariant Z 8 4 s H4 Hfit Hs).
Defined.

(** C7.  The mask is the modulo.  For every capacity the class accepts and
    every [size_t] value [c] of an index, [(c + 1) & (Capacity - 1)] is
    [(c + 1) mod Capacity]; in particular an index inside the buffer stays
    inside, stepping by one and wrapping to [0] after the last slot. *)
Theorem bitmask_advance_is_modulo (N c : Z) :
  valid_capacity N →
  in_size_t c →
  next_index N c = (c + 1) mod N ∧
  (0 ≤ c < N → 0 ≤ next_index N c < N).
Proof.
  intros HN Hc. split.
  - by apply next_index_mod.
  - intros Hlt. rewrite next_index_cases by done. case_match; lia.
Qed.

Lemma bitmask_advance_is_modulo_witness :
  valid_capacity 4096 ∧ in_size_t 4095 ∧
  next_index 4096 4095 = (4095 + 1) mod 4096 ∧
  (0 ≤ 4095 < 4096 → 0 ≤ next_index 4096 4095 < 4096).
Proof.
  assert (HN : valid_capacity 4096).
  { split; [unfold in_size_t, size_bits; lia|reflexivity]. }
  assert (Hc : in_size_t 4095) by (unfold in_size_t, size_bits; lia).
  split; [exact HN|]. split; [exact Hc|].
  exact (bitmask_advance_is_modulo 4096 4095 HN Hc).
Defined.

(** C8 as stated fails: capacity [1] passes the [static_assert], so not every
    accepted capacity is at least [2]. *)
Lemma capacity_one_is_accepted :
  capacity_ok 1 = true ∧ ¬ (∀ N, valid_capacity N → 2 ≤ N).
Proof.
  split; [reflexivity|].
  intros H. specialize (H 1).
  assert (valid_capacity 1) as H1
    by (split; [unfold in_size_t, size_bits; lia|reflexivity]).
  specialize (H H1). lia.
Qed.

(** C8, amended.  The class can be instantiated exactly with the capacities
    that are a power of two, [1 = 2 ^ 0] included; every other [size_t]
    value, [0] among them, is rejected by the [static_assert]. *)
Theorem accepted_capacities (N : Z) :
  in_size_t N →
  (capacity_ok N = true ↔ ∃ k, 0 ≤ k < 64 ∧ N = 2 ^ k) ∧
  capacity_ok 0 = false.
Proof.
  intros HN. split; [|reflexivity]. split.
  - intros Hok. by apply capacity_ok_pow2.
  - intros (k & Hk & ->). by apply pow2_capacity_ok.
Qed.

Lemma accepted_capacities_witness :
  in_size_t 6 ∧
  (capacity_ok 6 = true ↔ ∃ k, 0 ≤ k < 64 ∧ 6 = 2 ^ k) ∧
  capacity_ok 0 = false.
Proof.
  assert (H6 : in_size_t 6) by (unfold in_size_t, size_bits; lia).
  split; [exact H6|]. exact (accepted_capacities 6 H6).
Defined.

(** C10.  A channel of capacity [1] is accepted by the [static_assert] and
    can never hold an item: in every reachable state the next write position
    equals the read index, [try_push] returns [false] and [try_pop] returns
    [false], and the state never changes. *)
Theorem capacity_one_unusable (T : Type) (sz : Z) (s : state T) (item out : T) :
  reachable sz 1 s →
  capacity_ok 1 = true ∧
  next_index 1 (tail s) = head s ∧
  try_push 1 s item = Some (false, Some item, s) ∧
  try_pop 1 s out = Some (false, out, s) ∧
  s = init T sz 1.
Proof.
  intros Hs.
  assert (H1 : valid_capacity 1).
  { split; [unfold in_size_t, size_bits; lia|reflexivity]. }
  assert (Hinit : s = init T sz 1).
  { induction Hs as [|s o e s' _ IH Hstep]; [done|]. subst s.
    destruct o; simpl in Hstep; by simplify_eq. }
  subst s. by repeat split.
Qed.

Lemma capacity_one_unusable_witness :
  reachable 8 1 (init Z 8 1) ∧
  capacity_ok 1 = true ∧
  next_index 1 (tail (init Z 8 1)) = head (init Z 8 1) ∧
  try_push 1 (init Z 8 1) 5 = Some (false, Some 5, init Z 8 1) ∧
  try_pop 1 (init Z 8 1) 0 = Some (false, 0, init Z 8 1) ∧
  init Z 8 1 = init Z 8 1.
Proof.
  assert (Hs : reachable 8 1 (init Z 8 1)) by apply reach_init.
  split; [exact Hs|]. exact (capacity_one_unusable Z 8 (init Z 8 1) 5 0 Hs).
Defined.

(** ** Further properties of the channel *)

Section MoreChannel.

Context {T : Type}.
Variable N : Z.
Hypothesis HN : valid_capacity N.
Variable sz : Z.
Hypothesis Hsz : storage_fits sz N.

Implicit Types (s : state T) (q : list T) (x : T).

Lemma step_pop_ok s out y s1 :
  try_pop N s out = Some (true, y, s1) → step N s (Pop out) = Some (Received y, s1).
Proof. intros Hpop. simpl. by rewrite Hpop. Qed.

(** Popping as many times as items are waiting hands them out in order and
    leaves a state that holds nothing. *)
Lemma run_pops q : ∀ s (outs : list T),
  represents N s q → length outs = length q →
  ∃ s', run N s (Pop <$> outs) = Some (Received <$> q, s') ∧ represents N s' [].
Proof.
  induction q as [|y q IH]; intros s outs Hr Hlen.
  - destruct outs; [|done]. by exists s.
  - destruct outs as [|out outs]; [done|]. simpl in Hlen.
    destruct (try_pop_spec N HN s (y :: q) out Hr) as (_ & s1 & Hpop & Hr1).
    destruct (IH s1 outs Hr1 ltac:(lia)) as (s2 & Hrun & Hr2).
    exists s2. split; [|done].
    rewrite !fmap_cons. apply run_cons_ok with s1; [|done].
    by apply step_pop_ok.
Qed.

(** A state that holds nothing has raw storage in every slot. *)
Lemma represents_nil_buffer s :
  represents N s [] → buffer s = replicate (Z.to_nat N) None.
Proof.
  intros (Hh & Ht & Hlen & _ & _ & Hsl).
  apply list_eq. intros i.
  destruct (decide (i < Z.to_nat N)%nat) as [Hi|Hi].
  - rewrite lookup_replicate_2 by done.
    specialize (Hsl (Z.of_nat i) ltac:(lia)).
    by rewrite Nat2Z.id in Hsl.
  - rewrite !lookup_ge_None_2; [done|rewrite length_replicate; lia|lia].
Qed.

End MoreChannel.

(** X1.  The channel is a bounded FIFO queue of [N - 1] places.  In every
    reachable state at most [N - 1] items are waiting; [try_push] appends
    its item to them when fewer than [N - 1] are waiting and fails, changing
    nothing, otherwise; [try_pop] removes and returns the first of them when
    there is one and fails, changing nothing, otherwise.
    (For a channel whose storage size [sizeof(T) * N] fits [size_t].) *)
Theorem channel_is_bounded_queue (T : Type) (sz N : Z) (s : state T) (x out : T) :
  valid_capacity N →
  storage_fits sz N →
  reachable sz N s →
  Z.of_nat (length (pending N s)) ≤ N - 1 ∧
  (if decide (Z.of_nat (length (pending N s)) < N - 1)
   then ∃ s', try_push N s x = Some (true, None, s') ∧ reachable sz N s' ∧
              pending N s' = pending N s ++ [x]
   else try_push N s x = Some (false, Some x, s)) ∧
  match pending N s with
  | [] => try_pop N s out = Some (false, out, s)
  | y :: q => ∃ s', try_pop N s out = Some (true, y, s') ∧ reachable sz N s' ∧
                    pending N s' = q
  end.
Proof.
  intros HN Hsz Hs.
  destruct (reachable_represents N HN sz Hsz s Hs) as [q Hr].
  rewrite (represents_pending N s q Hr).
  pose proof (represents_distance N s q Hr) as Hd.
  pose proof Hr as (_ & _ & _ & Hq & _).
  split; [lia|]. split.
  - destruct (try_push_spec N HN s q x Hr)
      as [(Hfull & _ & Hfail)|(Hlt & s' & Hpush & _ & Hr')].
    + case_decide; [lia|done].
    + case_decide; [|lia]. exists s'. split; [done|]. split.
      * apply reach_step with s (Push x) (Sent x); [done|].
        by apply step_push_ok with None.
      * apply (represents_pending N s' _ Hr').
  - pose proof (try_pop_spec N HN s q out Hr) as Hpop.
    destruct q as [|y q]; [by destruct Hpop|].
    destruct Hpop as (_ & s' & Hpop & Hr'). exists s'. split; [done|]. split.
    + apply reach_step with s (Pop out) (Received y); [done|].
      by apply step_pop_ok.
    + apply (represents_pending N s' _ Hr').
Qed.

Lemma channel_is_bounded_queue_witness :
  let s := State 3 1 [Some 8; None; None; Some 7] in
  valid_capacity 4 ∧ storage_fits 8 4 ∧ reachable 8 4 s ∧
  Z.of_nat (length (pending 4 s)) ≤ 4 - 1 ∧
  (if decide (Z.of_nat (length (pending 4 s)) < 4 - 1)
   then ∃ s', try_push 4 s 9 = Some (true, None, s') ∧ reachable 8 4 s' ∧
              pending 4 s' = pending 4 s ++ [9]
   else try_push 4 s 9 = Some (false, Some 9, s)) ∧
  match pending 4 s with
  | [] => try_pop 4 s 0 = Some (false, 0, s)
  | y :: q => ∃ s', try_pop 4 s 0 = Some (true, y, s') ∧ reachable 8 4 s' ∧
                    pending 4 s' = q
  end.
Proof.
  intros s.
  assert (H4 : valid_capacity 4).
  { split; [unfold in_size_t, size_bits; lia|reflexivity]. }
  assert (Hfit : storage_fits 8 4).
  { unfold storage_fits, size_bits. lia. }
  assert (Hs : reachable 8 4 s).
  { assert (Hrun : run 4 (init Z 8 4)
              [Push 4; Push 5; Push 6; Pop 0; Pop 0; Pop 0; Push 7; Push 8]
            = Some ([Sent 4; Sent 5; Sent 6; Received 4; Received 5; Received 6;
                     Sent 7; Sent 8], s)) by reflexivity.
    exact (run_reachable 4 8 _ _ _ _ (reach_init Z 8 4) Hrun). }
  split; [exact H4|]. split; [exact Hfit|]. split; [exact Hs|].
  exact (channel_is_bounded_queue Z 8 4 s 9 0 H4 Hfit Hs).
Defined.

(** X2.  Slot lifetimes.  On a reachable state neither operation is
    undefined: the storage has [N] slots; a [try_push] that succeeds
    constructs its item in a slot that held no object (nothing is overwritten
    without having been destructed), and a [try_pop] that succeeds moves its
    item out of a slot that held one and leaves that slot without an object.
    (For a channel whose storage size [sizeof(T) * N] fits [size_t].) *)
Theorem reachable_memory_safe (T : Type) (sz N : Z) (s : state T) (x out : T) :
  valid_capacity N →
  storage_fits sz N →
  reachable sz N s →
  length (buffer s) = Z.to_nat N ∧
  (∃ r, try_push N s x = Some r) ∧
  (∃ r, try_pop N s out = Some r) ∧
  (∀ c s', try_push N s x = Some (true, c, s') →
     buffer s !! Z.to_nat (tail s) = Some None ∧
     buffer s' !! Z.to_nat (tail s) = Some (Some x)) ∧
  (∀ y s', try_pop N s out = Some (true, y, s') →
     buffer s !! Z.to_nat (head s) = Some (Some y) ∧
     buffer s' !! Z.to_nat (head s) = Some None).
Proof.
  intros HN Hsz Hs.
  destruct (reachable_represents N HN sz Hsz s Hs) as [q Hr].
  pose proof Hr as (Hh & Ht & Hlen & Hq & _ & Hsl).
  split; [done|]. split; [|split; [|split]].
  - destruct (try_push_spec N HN s q x Hr)
      as [(_ & _ & Hfail)|(_ & s' & Hpush & _)]; eauto.
  - pose proof (try_pop_spec N HN s q out Hr) as Hpop.
    destruct q; [destruct Hpop as [_ Hpop]|destruct Hpop as (_ & s' & Hpop & _)];
      eauto.
  - intros c s' Hpush.
    destruct (try_push_spec N HN s q x Hr)
      as [(_ & _ & Hfail)|(_ & s1 & Hok & _ & Hr1)]; [congruence|].
    assert (s1 = s') as -> by congruence. split.
    + rewrite Hsl by done. f_equal. apply lookup_ge_None_2.
      unfold distance in Hq. lia.
    + unfold try_push, construct_at in Hpush.
      repeat case_match; simplify_eq/=.
      apply list_lookup_insert_eq. lia.
  - intros y s' Hpop. unfold try_pop, take_at in Hpop.
    repeat case_match; simplify_eq/=. split; [done|].
    apply list_lookup_insert_eq. lia.
Qed.

Lemma reachable_memory_safe_witness :
  let s := State 3 1 [Some 8; None; None; Some 7] in
  valid_capacity 4 ∧ storage_fits 8 4 ∧ reachable 8 4 s ∧
  length (buffer s) = Z.to_nat 4 ∧
  (∃ r, try_push 4 s 9 = Some r) ∧
  (∃ r, try_pop 4 s 0 = Some r) ∧
  (∀ c s', try_push 4 s 9 = Some (true, c, s') →
     buffer s !! Z.to_nat (tail s) = Some None ∧
     buffer s' !! Z.to_nat (tail s) = Some (Some 9)) ∧
  (∀ y s', try_pop 4 s 0 = Some (true, y, s') →
     buffer s !! Z.to_nat (head s) = Some (Some y) ∧
     buffer s' !! Z.to_nat (head s) = Some None).
Proof.
  intros s.
  assert (H4 : valid_capacity 4).
  { split; [unfold in_size_t, size_bits; lia|reflexivity]. }
  assert (Hfit : storage_fits 8 4).
  { unfold storage_fits, size_bits. lia. }
  assert (Hs : reachable 8 4 s).
  { assert (Hrun : run 4 (init Z 8 4)
              [Push 4; Push 5; Push 6; Pop 0; Pop 0; Pop 0; Push 7; Push 8]
            = Some ([Sent 4; Sent 5; Sent 6; Received 4; Received 5; Received 6;
                     Sent 7; Sent 8], s)) by reflexivity.
    exact (run_reachable 4 8 _ _ _ _ (reach_init Z 8 4) Hrun). }
  split; [exact H4|]. split; [exact Hfit|]. split; [exact Hs|].
  exact (reachable_memory_safe Z 8 4 s 9 0 H4 Hfit Hs).
Defined.

(** X3.  Which slots are live is read off the two indices.  In a reachable
    state slot [i] holds the waiting item whose position in the queue is the
    forward distance from [head_] to [i], and holds no object when no item
    has that position; so it holds an object exactly when that distance is
    smaller than the distance from [head_] to [tail_].
    (For a channel whose storage size [sizeof(T) * N] fits [size_t].) *)
Theorem slot_liveness (T : Type) (sz N : Z) (s : state T) (i : Z) :
  valid_capacity N →
  storage_fits sz N →
  reachable sz N s →
  0 ≤ i < N →
  buffer s !! Z.to_nat i = Some (pending N s !! Z.to_nat ((i - head s) mod N)) ∧
  ((∃ y, buffer s !! Z.to_nat i = Some (Some y))
   ↔ (i - head s) mod N < (tail s - head s) mod N).
Proof.
  intros HN Hsz Hs Hi.
  destruct (reachable_represents N HN sz Hsz s Hs) as [q Hr].
  rewrite (represents_pending N s q Hr).
  pose proof Hr as (Hh & Ht & Hlen & Hq & _ & Hsl).
  unfold distance in Hq. rewrite <- Hq.
  pose proof (Z.mod_pos_bound (i - head s) N ltac:(lia)) as Hk.
  split; [by apply Hsl|]. rewrite (Hsl i Hi). split.
  - intros [y Hy]. apply (inj Some) in Hy.
    apply lookup_lt_Some in Hy. lia.
  - intros Hlt.
    destruct (lookup_lt_is_Some_2 q (Z.to_nat ((i - head s) mod N))) as [y Hy];
      [lia|].
    exists y. by rewrite Hy.
Qed.

Lemma slot_liveness_witness :
  let s := State 3 1 [Some 8; None; None; Some 7] in
  valid_capacity 4 ∧ storage_fits 8 4 ∧ reachable 8 4 s ∧ 0 ≤ 0 < 4 ∧
  buffer s !! Z.to_nat 0 = Some (pending 4 s !! Z.to_nat ((0 - head s) mod 4)) ∧
  ((∃ y, buffer s !! Z.to_nat 0 = Some (Some y))
   ↔ (0 - head s) mod 4 < (tail s - head s) mod 4).
Proof.
  intros s.
  assert (H4 : valid_capacity 4).
  { split; [unfold in_size_t, size_bits; lia|reflexivity]. }
  assert (Hfit : storage_fits 8 4).
  { unfold storage_fits, size_bits. lia. }
  assert (Hs : reachable 8 4 s).
  { assert (Hrun : run 4 (init Z 8 4)
              [Push 4; Push 5; Push 6; Pop 0; Pop 0; Pop 0; Push 7; Push 8]
            = Some ([Sent 4; Sent 5; Sent 6; Received 4; Received 5; Received 6;
                     Sent 7; Sent 8], s)) by reflexivity.
    exact (run_reachable 4 8 _ _ _ _ (reach_init Z 8 4) Hrun). }
  assert (H0 : 0 ≤ 0 < 4) by lia.
  split; [exact H4|]. split; [exact Hfit|]. split; [exact Hs|]. split; [exact H0|].
  exact (slot_liveness Z 8 4 s 0 H4 Hfit Hs H0).
Defined.

(** X4.  The producer's and the consumer's operation commute.  In a
    reachable state where [try_push] and [try_pop] would both succeed, doing
    them in either order hands out the same item and ends in the same state:
    the two calls touch different indices and different slots.
    (For a channel whose storage size [sizeof(T) * N] fits [size_t].) *)
Theorem push_pop_commute (T : Type) (sz N : Z) (s s1 s2 : state T)
    (x out y : T) (c : option T) :
  valid_capacity N →
  storage_fits sz N →
  reachable sz N s →
  try_push N s x = Some (true, c, s1) →
  try_pop N s out = Some (true, y, s2) →
  ∃ s12, try_pop N s1 out = Some (true, y, s12) ∧
         try_push N s2 x = Some (true, c, s12).
Proof.
  intros HN Hsz Hs Hpush Hpop.
  destruct (reachable_represents N HN sz Hsz s Hs) as [q Hr].
  pose proof Hr as (Hh & Ht & Hlen & _).
  unfold try_push, try_pop, construct_at, take_at in *.
  rewrite (next_index_cases N (tail s)) in * by done.
  rewrite (next_index_cases N (head s)) in * by done.
  destruct (Z.eqb_spec (if tail s + 1 =? N then 0 else tail s + 1) (head s))
    as [|Hfree]; [done|].
  destruct (Z.eqb_spec (head s) (tail s)) as [|Hne]; [done|].
  destruct (Z.leb_spec 0 (head s)); [|lia].
  destruct (buffer s !! Z.to_nat (head s)) as [[y'|]|] eqn:Hslot; [|done..].
  replace ((0 <=? tail s) && (tail s <? Z.of_nat (length (buffer s))))
    with true in * by (symmetry; apply andb_true_iff; lia).
  simplify_eq/=.
  rewrite (next_index_cases N (tail s)) by done.
  destruct (Z.eqb_spec (head s) (if tail s + 1 =? N then 0 else tail s + 1))
    as [Heq|_]; [by rewrite Heq in Hfree|].
  rewrite list_lookup_insert_ne by lia. rewrite Hslot.
  destruct (Z.leb_spec 0 (head s)); [|lia]. simpl.
  destruct (Z.eqb_spec (if tail s + 1 =? N then 0 else tail s + 1)
              (if head s + 1 =? N then 0 else head s + 1)) as [Heq|_].
  { destruct (Z.eqb_spec (tail s + 1) N), (Z.eqb_spec (head s + 1) N); lia. }
  rewrite length_insert.
  replace ((0 <=? tail s) && (tail s <? Z.of_nat (length (buffer s))))
    with true by (symmetry; apply andb_true_iff; lia).
  simpl. rewrite ?(next_index_cases N (head s)) by done.
  eexists. split; [reflexivity|].
  do 3 f_equal. apply list_insert_insert_ne. lia.
Qed.

Lemma push_pop_commute_witness :
  let s := State 3 1 [Some 8; None; None; Some 7] in
  let s1 := State 3 2 [Some 8; Some 9; None; Some 7] in
  let s2 := State 0 1 [Some 8; None; None; None] in
  valid_capacity 4 ∧ storage_fits 8 4 ∧ reachable 8 4 s ∧
  try_push 4 s 9 = Some (true, None, s1) ∧
  try_pop 4 s 0 = Some (true, 7, s2) ∧
  ∃ s12, try_pop 4 s1 0 = Some (true, 7, s12) ∧
         try_push 4 s2 9 = Some (true, None, s12).
Proof.
  intros s s1 s2.
  assert (H4 : valid_capacity 4).
  { split; [unfold in_size_t, size_bits; lia|reflexivity]. }
  assert (Hfit : storage_fits 8 4).
  { unfold storage_fits, size_bits. lia. }
  assert (Hs : reachable 8 4 s).
  { assert (Hrun : run 4 (init Z 8 4)
              [Push 4; Push 5; Push 6; Pop 0; Pop 0; Pop 0; Push 7; Push 8]
            = Some ([Sent 4; Sent 5; Sent 6; Received 4; Received 5; Received 6;
                     Sent 7; Sent 8], s)) by reflexivity.
    exact (run_reachable 4 8 _ _ _ _ (reach_init Z 8 4) Hrun). }
  split; [exact H4|]. split; [exact Hfit|]. split; [exact Hs|].
  split; [reflexivity|]. split; [reflexivity|].
  exact (push_pop_commute Z 8 4 s s1 s2 9 0 7 None H4 Hfit Hs eq_refl eq_refl).
Defined.

(** X5.  Draining.  From a reachable state, as many [try_pop] calls as items
    are waiting all succeed and hand the items out oldest first; afterwards
    the indices are equal, every slot is raw storage again, and a further
    [try_pop] fails.
    (For a channel whose storage size [sizeof(T) * N] fits [size_t].) *)
Theorem drain_returns_pending (T : Type) (sz N : Z) (s : state T) (outs : list T) :
  valid_capacity N →
  storage_fits sz N →
  reachable sz N s →
  length outs = length (pending N s) →
  ∃ s', run N s (Pop <$> outs) = Some (Received <$> pending N s, s') ∧
        head s' = tail s' ∧
        buffer s' = replicate (Z.to_nat N) None ∧
        ∀ out, try_pop N s' out = Some (false, out, s').
Proof.
  intros HN Hsz Hs Hlen.
  destruct (reachable_represents N HN sz Hsz s Hs) as [q Hr].
  rewrite (represents_pending N s q Hr) in *.
  destruct (run_pops N HN q s outs Hr Hlen) as (s' & Hrun & Hr').
  exists s'. split; [done|]. split; [|split].
  - by apply (represents_empty_iff N s' [] Hr').
  - by apply represents_nil_buffer.
  - intros out. by destruct (try_pop_spec N HN s' [] out Hr').
Qed.

Lemma drain_returns_pending_witness :
  let s := State 3 1 [Some 8; None; None; Some 7] in
  valid_capacity 4 ∧ storage_fits 8 4 ∧ reachable 8 4 s ∧
  length [0; 0] = length (pending 4 s) ∧
  ∃ s', run 4 s (Pop <$> [0; 0]) = Some (Received <$> pending 4 s, s') ∧
        head s' = tail s' ∧
        buffer s' = replicate (Z.to_nat 4) None ∧
        ∀ out, try_pop 4 s' out = Some (false, out, s').
Proof.
  intros s.
  assert (H4 : valid_capacity 4).
  { split; [unfold in_size_t, size_bits; lia|reflexivity]. }
  assert (Hfit : storage_fits 8 4).
  { unfold storage_fits, size_bits. lia. }
  assert (Hs : reachable 8 4 s).
  { assert (Hrun : run 4 (init Z 8 4)
              [Push 4; Push 5; Push 6; Pop 0; Pop 0; Pop 0; Push 7; Push 8]
            = Some ([Sent 4; Sent 5; Sent 6; Received 4; Received 5; Received 6;
                     Sent 7; Sent 8], s)) by reflexivity.
    exact (run_reachable 4 8 _ _ _ _ (reach_init Z 8 4) Hrun). }
  split; [exact H4|]. split; [exact Hfit|]. split; [exact Hs|]. split; [reflexivity|].
  exact (drain_returns_pending Z 8 4 s [0; 0] H4 Hfit Hs eq_refl).
Defined.

(** X6.  What [prefetch_next] prefetches.  In a reachable state the index
    it computes is inside the buffer; with two slots or more it is not the
    slot the next [try_pop] reads but the one after it, which holds the
    second-oldest waiting item, or no object when fewer than two items are
    waiting.
    (For a channel whose storage size [sizeof(T) * N] fits [size_t].) *)
Theorem prefetch_next_target (T : Type) (sz N : Z) (s : state T) :
  valid_capacity N →
  storage_fits sz N →
  reachable sz N s →
  0 ≤ prefetch_next N s < N ∧
  (2 ≤ N →
     prefetch_next N s ≠ head s ∧
     buffer s !! Z.to_nat (prefetch_next N s) = Some (pending N s !! 1%nat)).
Proof.
  intros HN Hsz Hs.
  destruct (reachable_represents N HN sz Hsz s Hs) as [q Hr].
  rewrite (represents_pending N s q Hr).
  pose proof Hr as (Hh & Ht & Hlen & _ & _ & Hsl).
  unfold prefetch_next. rewrite next_index_cases by done.
  split; [case_match; lia|]. intros H2. split; [case_match; lia|].
  rewrite Hsl by (case_match; lia). do 2 f_equal.
  rewrite mod_sub_cases by (done || case_match; lia).
  destruct (Z.eqb_spec (head s + 1) N); case_match; lia.
Qed.

Lemma prefetch_next_target_witness :
  let s := State 3 1 [Some 8; None; None; Some 7] in
  valid_capacity 4 ∧ storage_fits 8 4 ∧ reachable 8 4 s ∧
  0 ≤ prefetch_next 4 s < 4 ∧
  (2 ≤ 4 →
     prefetch_next 4 s ≠ head s ∧
     buffer s !! Z.to_nat (prefetch_next 4 s) = Some (pending 4 s !! 1%nat)).
Proof.
  intros s.
  assert (H4 : valid_capacity 4).
  { split; [unfold in_size_t, size_bits; lia|reflexivity]. }
  assert (Hfit : storage_fits 8 4).
  { unfold storage_fits, size_bits. lia. }
  assert (Hs : reachable 8 4 s).
  { assert (Hrun : run 4 (init Z 8 4)
              [Push 4; Push 5; Push 6; Pop 0; Pop 0; Pop 0; Push 7; Push 8]
            = Some ([Sent 4; Sent 5; Sent 6; Received 4; Received 5; Received 6;
                     Sent 7; Sent 8], s)) by reflexivity.
    exact (run_reachable 4 8 _ _ _ _ (reach_init Z 8 4) Hrun). }
  split; [exact H4|]. split; [exact Hfit|]. split; [exact Hs|].
  exact (prefetch_next_target Z 8 4 s H4 Hfit Hs).
Defined.

(** ** The two threads interleaved *)

Section Interleaving.

Context {T : Type}.
Variable N : Z.
Hypothesis HN : valid_capacity N.
Variable sz : Z.
Hypothesis Hsz : storage_fits sz N.

Implicit Types (c : config T) (q : list T) (x : T) (buf : list (option T)).

Lemma insert_undo buf (i : nat) (v w : option T) :
  buf !! i = Some v → <[i := v]> (<[i := w]> buf) = buf.
Proof. intros Hi. by rewrite list_insert_insert_eq, list_insert_id. Qed.

Lemma sends_snoc (l : list (event T)) e : sends (l ++ [e]) = sends l ++ sends [e].
Proof. unfold sends. by rewrite omap_app. Qed.

Lemma receives_snoc (l : list (event T)) e :
  receives (l ++ [e]) = receives l ++ receives [e].
Proof. unfold receives. by rewrite omap_app. Qed.

Lemma try_push_ok_state (s s' : state T) x o :
  try_push N s x = Some (true, o, s') →
  s' = State (head s) (next_index N (tail s))
         (<[Z.to_nat (tail s) := Some x]> (buffer s)).
Proof.
  unfold try_push, construct_at. intros Hpush.
  repeat case_match; by simplify_eq/=.
Qed.

Lemma try_pop_ok_state (s s' : state T) out y :
  try_pop N s out = Some (true, y, s') →
  s' = State (next_index N (head s)) (tail s)
         (<[Z.to_nat (head s) := None]> (buffer s)).
Proof.
  unfold try_pop, take_at. intros Hpop.
  repeat case_match; by simplify_eq/=.
Qed.

Lemma linked_init : linked N (cinit T sz N) [].
Proof.
  split; [by apply represents_init|]. by split.
Qed.

Lemma represents_tail_raw (s : state T) q :
  represents N s q → buffer s !! Z.to_nat (tail s) = Some None.
Proof.
  intros (Hh & Ht & Hlen & Hq & _ & Hsl).
  rewrite Hsl by done. f_equal. apply lookup_ge_None_2.
  unfold distance in Hq. lia.
Qed.

Lemma represents_head_item (s : state T) q :
  represents N s q → buffer s !! Z.to_nat (head s) = Some (q !! 0%nat).
Proof.
  intros (Hh & Ht & Hlen & Hq & _ & Hsl).
  rewrite Hsl by done. by rewrite Z.sub_diag, Z.mod_0_l by lia.
Qed.

Lemma represents_nonempty_ne (s : state T) q :
  represents N s q → q ≠ [] → Z.to_nat (head s) ≠ Z.to_nat (tail s).
Proof.
  intros Hr Hq Heq. pose proof Hr as (Hh & Ht & _).
  apply Hq, (represents_empty_iff N s q Hr). lia.
Qed.

(** What the consumer has taken back into its slot does not reach the
    producer's slot, and the other way round. *)
Lemma settled_buffer_cases c :
  buffer (settled c)
  = (match prod c with
     | PBuilt _ ct _ => <[Z.to_nat ct := None]>
     | _ => id
     end)
      ((match cons c with
        | CMoved ch x => <[Z.to_nat ch := Some x]>
        | _ => id
        end) (buffer (mem c))).
Proof. destruct c as [m p k l]. by destruct p, k. Qed.

(** A step of the producer keeps the two threads and the memory linked. *)
Lemma producer_step_linked c q :
  linked N c q → ∃ c' q', producer_step N c = Some c' ∧ linked N c' q'.
Proof.
  destruct c as [[h t buf] p k l]. intros (Hr & Hlog & Hp & Hk).
  pose proof Hr as (Hh & Ht & Hlen & _). simpl in Hh, Ht, Hlog.
  destruct p as [|x ct|x ct nt|x ct nt]; simpl in Hp.
  - exists (Config (State h t buf) PIdle k l), q. by split.
  - subst ct. unfold producer_step. simpl.
    destruct (Z.eqb_spec (next_index N t) h) as [Hfull|Hfree].
    + eexists _, q. split; [reflexivity|].
      split; [done|]. split; [|done]. simpl.
      by rewrite sends_snoc, receives_snoc, !app_nil_r.
    + eexists _, q. split; [reflexivity|].
      split; [done|]. split; [done|]. split; [|done]. simpl.
      split; [done|]. split; [done|].
      destruct (try_push_spec N HN _ q x Hr) as [(_ & Hfull & _)|(Hlt & _)];
        [|done].
      simpl in Hfull. destruct k; simpl in Hfull; congruence.
  - destruct Hp as (-> & -> & Hlt).
    assert (Hlenb : length buf = Z.to_nat N).
    { rewrite <- Hlen. destruct k; simpl; by rewrite ?length_insert. }
    unfold producer_step, construct_at. simpl.
    replace ((0 <=? t) && (t <? Z.of_nat (length buf)))
      with true by (symmetry; apply andb_true_iff; lia).
    simpl. eexists _, q. split; [reflexivity|].
    pose proof (represents_tail_raw _ q Hr) as Hraw. simpl in Hraw.
    assert (Hsame : settled (Config (State h t (<[Z.to_nat t:=Some x]> buf))
                     (PBuilt x t (next_index N t)) k l)
                    = settled (Config (State h t buf) (PRoom x t (next_index N t)) k l)).
    { unfold settled. simpl. f_equal. destruct k as [| | |ch y]; simpl in *.
      1-3: by apply insert_undo.
      destruct Hk as (-> & Hy & Hnone).
      assert (Z.to_nat h ≠ Z.to_nat t) as Hne.
      { apply (represents_nonempty_ne _ q Hr). by intros ->. }
      rewrite (list_insert_insert_ne _ (Z.to_nat t) (Z.to_nat h)) by done.
      f_equal. apply insert_undo. by rewrite list_lookup_insert_ne in Hraw. }
    split; [by rewrite Hsame|]. split; [done|]. simpl. split.
    + split; [done|]. split; [done|]. split; [done|].
      apply list_lookup_insert_eq. lia.
    + destruct k as [| | |ch y]; try done.
      destruct Hk as (-> & Hy & Hnone). split; [done|]. split; [done|].
      assert (Z.to_nat h ≠ Z.to_nat t) as Hne.
      { apply (represents_nonempty_ne _ q Hr). by intros ->. }
      by rewrite list_lookup_insert_ne.
  - destruct Hp as (-> & -> & Hlt & Hbuilt).
    unfold producer_step. simpl. eexists _, (q ++ [x]). split; [reflexivity|].
    destruct (try_push_spec N HN _ q x Hr)
      as [(Hfull & _)|(_ & s' & Hpush & _ & Hr')]; [lia|].
    rewrite (try_push_ok_state _ _ _ _ Hpush) in Hr'. simpl in Hr'.
    assert (Hne : ∀ ch y, k = CMoved ch y → Z.to_nat ch ≠ Z.to_nat t).
    { intros ch y ->. destruct Hk as (-> & Hy & _).
      apply (represents_nonempty_ne _ q Hr). by intros ->. }
    assert (Hsame : <[Z.to_nat t:=Some x]>
                      (buffer (settled (Config (State h t buf)
                                          (PBuilt x t (next_index N t)) k l)))
                    = buffer (settled (Config (State h (next_index N t) buf) PIdle k
                                         (l ++ [Sent x])))).
    { unfold settled. simpl. destruct k as [| | |ch y]; simpl.
      1-3: by apply insert_undo.
      rewrite list_insert_insert_eq. apply list_insert_id.
      rewrite list_lookup_insert_ne; [done|]. by eapply Hne. }
    split; [|split; [|split]].
    + unfold settled in *. simpl in *. by rewrite <- Hsame.
    + simpl. rewrite sends_snoc, receives_snoc. simpl.
      by rewrite app_nil_r, Hlog, app_assoc.
    + done.
    + destruct k as [| | |ch y]; simpl in *; try done.
      * destruct Hk as [-> Hq]. split; [done|]. by destruct q.
      * destruct Hk as (-> & Hy & Hnone). split; [done|]. split; [|done].
        by apply lookup_app_l_Some.
Qed.

(** A step of the consumer keeps the two threads and the memory linked. *)
Lemma consumer_step_linked c q :
  linked N c q → ∃ c' q', consumer_step N c = Some c' ∧ linked N c' q'.
Proof.
  destruct c as [[h t buf] p k l]. intros (Hr & Hlog & Hp & Hk).
  pose proof Hr as (Hh & Ht & Hlen & _). simpl in Hh, Ht, Hlog.
  destruct k as [|ch|ch|ch y]; simpl in Hk.
  - exists (Config (State h t buf) p CIdle l), q. by split.
  - subst ch. unfold consumer_step. simpl.
    destruct (Z.eqb_spec h t) as [Hempty|Hdata].
    + eexists _, q. split; [reflexivity|].
      split; [done|]. split; [|done]. simpl.
      by rewrite sends_snoc, receives_snoc, !app_nil_r.
    + eexists _, q. split; [reflexivity|].
      split; [done|]. split; [done|]. split; [done|]. simpl.
      split; [done|]. intros ->.
      by apply Hdata, (represents_empty_iff N _ [] Hr).
  - destruct Hk as [-> Hq]. destruct q as [|y q]; [done|].
    assert (Hne : Z.to_nat h ≠ Z.to_nat t).
    { by apply (represents_nonempty_ne _ (y :: q) Hr). }
    pose proof (represents_head_item _ _ Hr) as Hitem. simpl in Hitem.
    assert (Hslot : buf !! Z.to_nat h = Some (Some y)).
    { destruct p; simpl in *; try done.
      destruct Hp as (-> & _). by rewrite list_lookup_insert_ne in Hitem. }
    unfold consumer_step, take_at. simpl.
    destruct (Z.leb_spec 0 h); [|lia]. rewrite Hslot. simpl.
    eexists _, (y :: q). split; [reflexivity|].
    assert (Hsame : settled (Config (State h t (<[Z.to_nat h:=None]> buf)) p
                               (CMoved h y) l)
                    = settled (Config (State h t buf) p (CData h) l)).
    { unfold settled. simpl. rewrite insert_undo by done. by destruct p. }
    split; [by rewrite Hsame|]. split; [done|]. simpl. split.
    + destruct p as [| | |x ct nt]; try done.
      destruct Hp as (-> & -> & Hlt & Hbuilt). repeat split; try done.
      by rewrite list_lookup_insert_ne.
    + split; [done|]. split; [done|]. apply list_lookup_insert_eq.
      apply lookup_lt_Some in Hslot. lia.
  - destruct Hk as (-> & Hy & Hnone). destruct q as [|y' q]; [done|].
    simpl in Hy. simplify_eq.
    assert (Hne : Z.to_nat h ≠ Z.to_nat t).
    { by apply (represents_nonempty_ne _ (y :: q) Hr). }
    unfold consumer_step. simpl. eexists _, q. split; [reflexivity|].
    destruct (try_pop_spec N HN _ (y :: q) y Hr) as (_ & s' & Hpop & Hr').
    rewrite (try_pop_ok_state _ _ _ _ Hpop) in Hr'. simpl in Hr'.
    assert (Hsame : <[Z.to_nat h:=None]>
                      (buffer (settled (Config (State h t buf) p (CMoved h y) l)))
                    = buffer (settled (Config (State (next_index N h) t buf) p CIdle
                                         (l ++ [Received y])))).
    { unfold settled. simpl. destruct p as [| | |x ct nt]; simpl.
      1-3: by apply insert_undo.
      destruct Hp as (-> & _).
      rewrite (list_insert_insert_ne _ (Z.to_nat h) (Z.to_nat t)) by done.
      f_equal. by apply insert_undo. }
    split; [|split; [|split]].
    + unfold settled in *. simpl in *. by rewrite <- Hsame.
    + simpl. rewrite sends_snoc, receives_snoc. simpl.
      by rewrite app_nil_r, Hlog, <- app_assoc.
    + destruct p as [| | |x ct nt]; simpl in *; try done.
      * destruct Hp as (-> & -> & Hlt). repeat split; try done. lia.
      * destruct Hp as (-> & -> & Hlt & Hbuilt). repeat split; try done. lia.
    + done.
Qed.

Lemma call_push_linked c q x : linked N c q → linked N (call_push c x) q.
Proof.
  destruct c as [m p k l]. intros (Hr & Hlog & Hp & Hk).
  by destruct p.
Qed.

Lemma call_pop_linked c q : linked N c q → linked N (call_pop c) q.
Proof.
  destruct c as [m p k l]. intros (Hr & Hlog & Hp & Hk).
  by destruct k.
Qed.

Lemma cstep_linked c q a :
  linked N c q → ∃ c' q', cstep N c a = Some c' ∧ linked N c' q'.
Proof.
  intros Hl. destruct a as [x| | |]; simpl.
  - eexists _, q. split; [done|]. by apply call_push_linked.
  - by apply producer_step_linked with q.
  - eexists _, q. split; [done|]. by apply call_pop_linked.
  - by apply consumer_step_linked with q.
Qed.

(** Whatever the schedule, every step is defined and the link is kept. *)
Lemma crun_linked schedule : ∀ c q,
  linked N c q → ∃ c' q', crun N c schedule = Some c' ∧ linked N c' q'.
Proof.
  induction schedule as [|a schedule IH]; intros c q Hl.
  - by exists c, q.
  - destruct (cstep_linked c q a Hl) as (c1 & q1 & Hstep & Hl1).
    destruct (IH c1 q1 Hl1) as (c2 & q2 & Hrun & Hl2).
    exists c2, q2. split; [|done]. simpl. rewrite Hstep. by simpl.
Qed.

(** A call that the other thread does not interleave with is the member
    function as a whole. *)
Lemma uninterrupted_push c x :
  prod c = PIdle →
  crun N c [CallPush x; StepProducer; StepProducer; StepProducer]
  = '(ok, _, s') ← try_push N (mem c) x;
    Some (Config s' PIdle (cons c)
            (log c ++ [if ok : bool then Sent x else SendFull x])).
Proof.
  destruct c as [[h t buf] p k l]. simpl. intros ->.
  unfold try_push, producer_step, call_push. simpl.
  destruct (next_index N t =? h); simpl; [done|].
  by destruct (construct_at buf t x).
Qed.

Lemma uninterrupted_pop c out :
  cons c = CIdle →
  crun N c [CallPop; StepConsumer; StepConsumer; StepConsumer]
  = '(ok, y, s') ← try_pop N (mem c) out;
    Some (Config s' (prod c) CIdle
            (log c ++ [if ok : bool then Received y else RecvEmpty])).
Proof.
  destruct c as [[h t buf] p k l]. simpl. intros ->.
  unfold try_pop, consumer_step, call_pop. simpl.
  destruct (h =? t); simpl; [done|].
  by destruct (take_at buf h) as [[y buf']|].
Qed.

(** Between their checks and their stores the two threads work on different
    slots. *)
Lemma linked_slots_differ c q (i j : Z) :
  linked N c q →
  producer_slot (prod c) = Some i → consumer_slot (cons c) = Some j → i ≠ j.
Proof.
  destruct c as [[h t buf] p k l]. intros (Hr & _ & Hp & Hk) Hi Hj.
  pose proof Hr as (Hh & Ht & _). simpl in *.
  assert (q ≠ []) as Hq.
  { destruct k; simplify_eq/=; [by destruct Hk|].
    destruct Hk as (_ & Hy & _). by destruct q. }
  pose proof (represents_nonempty_ne _ q Hr Hq) as Hne. simpl in Hne.
  assert (i = t) as -> by (destruct p; simplify_eq/=; by destruct Hp).
  assert (j = h) as -> by (destruct k; simplify_eq/=; by destruct Hk).
  lia.
Qed.

End Interleaving.

(** X12.  The two threads interleaved: no undefined step, and FIFO.  Take
    [try_push] and [try_pop] statement by statement, one thread calling
    [try_push] with any items and one calling [try_pop], their steps
    interleaved in any order.  Then no step is undefined (no slot is read
    that holds no object, none is accessed out of bounds); the items of the
    calls to [try_pop] that have returned [true] are, in order, the first of
    the items of the calls to [try_push] that have returned [true]; at most
    [N - 1] sent items are not received yet; and when both threads are
    between calls the rest of the sent items is what waits in the buffer.
    (For a channel whose storage size [sizeof(T) * N] fits [size_t].) *)
Theorem interleaved_fifo (T : Type) (sz N : Z) (schedule : list (action T)) :
  valid_capacity N →
  storage_fits sz N →
  ∃ c, crun N (cinit T sz N) schedule = Some c ∧
       receives (log c) `prefix_of` sends (log c) ∧
       Z.of_nat (length (sends (log c))) - Z.of_nat (length (receives (log c)))
         ≤ N - 1 ∧
       (prod c = PIdle → cons c = CIdle →
          sends (log c) = receives (log c) ++ pending N (mem c)).
Proof.
  intros HN Hsz.
  destruct (crun_linked N HN schedule (cinit T sz N) [] (linked_init N HN sz Hsz))
    as (c & q & Hrun & Hr & Hlog & Hp & Hk).
  exists c. split; [done|]. split; [by exists q|]. split.
  - rewrite Hlog, length_app.
    pose proof (represents_distance N _ q Hr) as Hd.
    destruct Hr as (_ & _ & _ & Hq & _). lia.
  - intros Hidle1 Hidle2. rewrite Hlog. f_equal. symmetry.
    apply (represents_pending N (mem c) q).
    destruct c as [[h t buf] p k l]. simpl in *. by subst p k.
Qed.

Lemma interleaved_fifo_witness :
  valid_capacity 4 ∧ storage_fits 8 4 ∧
  ∃ c, crun 4 (cinit Z 8 4)
         [CallPush 1; StepProducer; CallPop; StepConsumer; StepProducer;
          StepProducer; CallPop; StepConsumer; StepConsumer; StepConsumer]
       = Some c ∧
       receives (log c) `prefix_of` sends (log c) ∧
       Z.of_nat (length (sends (log c))) - Z.of_nat (length (receives (log c)))
         ≤ 4 - 1 ∧
       (prod c = PIdle → cons c = CIdle →
          sends (log c) = receives (log c) ++ pending 4 (mem c)).
Proof.
  assert (H4 : valid_capacity 4).
  { split; [unfold in_size_t, size_bits; lia|reflexivity]. }
  assert (Hfit : storage_fits 8 4).
  { unfold storage_fits, size_bits. lia. }
  split; [exact H4|]. split; [exact Hfit|].
  exact (interleaved_fifo Z 8 4 _ H4 Hfit).
Defined.

(** X13.  The two threads never work on the same slot.  In every state the
    interleaved threads can reach, when the producer is between its check for
    room and its store to [tail_] and the consumer is between its check for
    data and its store to [head_], the slot the producer constructs in and
    the slot the consumer moves from are different; the producer's slot holds
    no object before it constructs, and the consumer's slot holds one before
    it moves.
    (For a channel whose storage size [sizeof(T) * N] fits [size_t].) *)
Theorem interleaved_slots_disjoint
    (T : Type) (sz N : Z) (schedule : list (action T)) (c : config T) :
  valid_capacity N →
  storage_fits sz N →
  crun N (cinit T sz N) schedule = Some c →
  (∀ i j, producer_slot (prod c) = Some i → consumer_slot (cons c) = Some j →
     i ≠ j) ∧
  (∀ x ct nt, prod c = PRoom x ct nt →
     buffer (mem c) !! Z.to_nat ct = Some None) ∧
  (∀ ch, cons c = CData ch →
     ∃ y, buffer (mem c) !! Z.to_nat ch = Some (Some y)).
Proof.
  intros HN Hsz Hrun.
  destruct (crun_linked N HN schedule (cinit T sz N) [] (linked_init N HN sz Hsz))
    as (c' & q & Hrun' & Hl).
  assert (c' = c) as -> by congruence.
  split; [|split].
  - intros i j. by apply (linked_slots_differ N c q).
  - intros x ct nt Hp.
    destruct c as [[h t buf] p k l]. simpl in *. subst p.
    destruct Hl as (Hr & _ & (-> & _) & Hk). simpl in *.
    pose proof (represents_tail_raw N _ q Hr) as Hraw. simpl in Hraw.
    destruct k as [| | |ch y]; try done.
    destruct Hk as (-> & Hy & _).
    rewrite list_lookup_insert_ne in Hraw; [done|].
    apply (represents_nonempty_ne N _ q Hr). by intros ->.
  - intros ch Hk.
    destruct c as [[h t buf] p k l]. simpl in *. subst k.
    destruct Hl as (Hr & _ & Hp & (-> & Hq)). simpl in *.
    pose proof (represents_head_item N _ q Hr) as Hitem. simpl in Hitem.
    destruct q as [|y q]; [done|]. exists y.
    destruct p as [| | |x ct nt]; try done.
    destruct Hp as (-> & _).
    rewrite list_lookup_insert_ne in Hitem; [done|].
    intros Heq. by apply (represents_nonempty_ne N _ (y :: q) Hr).
Qed.

Lemma interleaved_slots_disjoint_witness :
  let schedule :=
    [CallPush 1; StepProducer; StepProducer; StepProducer;
     CallPush 2; StepProducer; CallPop; StepConsumer] in
  let c := Config (State 0 1 [Some 1; None; None; None])
             (PRoom 2 1 2) (CData 0) [Sent 1] in
  valid_capacity 4 ∧ storage_fits 8 4 ∧
  crun 4 (cinit Z 8 4) schedule = Some c ∧
  (∀ i j, producer_slot (prod c) = Some i → consumer_slot (cons c) = Some j →
     i ≠ j) ∧
  (∀ x ct nt, prod c = PRoom x ct nt →
     buffer (mem c) !! Z.to_nat ct = Some None) ∧
  (∀ ch, cons c = CData ch →
     ∃ y, buffer (mem c) !! Z.to_nat ch = Some (Some y)).
Proof.
  intros schedule c.
  assert (H4 : valid_capacity 4).
  { split; [unfold in_size_t, size_bits; lia|reflexivity]. }
  assert (Hfit : storage_fits 8 4).
  { unfold storage_fits, size_bits. lia. }
  assert (Hrun : crun 4 (cinit Z 8 4) schedule = Some c) by reflexivity.
  split; [exact H4|]. split; [exact Hfit|]. split; [exact Hrun|].
  exact (interleaved_slots_disjoint Z 8 4 schedule c H4 Hfit Hrun).
Defined.

(** ** Destruction *)

Section Destruction.

Context {T : Type}.
Variable N : Z.
Hypothesis HN : valid_capacity N.
Variable sz : Z.
Hypothesis Hsz : storage_fits sz N.

Implicit Types (s : state T) (q : list T) (buf : list (option T)).

Lemma omap_insert_some buf (i : nat) (x : T) :
  buf !! i = Some None →
  omap id (<[i := Some x]> buf) ≡ₚ x :: omap id buf.
Proof.
  revert i. induction buf as [|c buf IH]; intros [|i] Hi; simplify_eq/=; [done|].
  destruct c as [y|]; simpl.
  - rewrite IH by done. apply Permutation_swap.
  - by apply IH.
Qed.

Lemma omap_insert_none buf (i : nat) (x : T) :
  buf !! i = Some (Some x) →
  x :: omap id (<[i := None]> buf) ≡ₚ omap id buf.
Proof.
  revert i. induction buf as [|c buf IH]; intros [|i] Hi; simplify_eq/=; [done|].
  destruct c as [y|]; simpl.
  - rewrite <- (IH i) by done. apply Permutation_swap.
  - by apply IH.
Qed.

(** The objects in the slots are the waiting items. *)
Lemma reachable_live_items s :
  reachable sz N s → ∃ q, represents N s q ∧ omap id (buffer s) ≡ₚ q.
Proof.
  induction 1 as [|s o e s' _ (q & Hr & Hperm) Hstep].
  - exists []. split; [by apply represents_init|].
    pose proof (valid_capacity_pos N HN).
    rewrite init_exact by (done || lia). unfold init. simpl.
    by induction (Z.to_nat N).
  - destruct o as [x|out]; simpl in Hstep.
    + destruct (try_push_spec N HN s q x Hr)
        as [(_ & _ & Hfail)|(_ & s1 & Hpush & _ & Hr1)];
        rewrite ?Hfail, ?Hpush in Hstep; simplify_eq/=.
      * by exists q.
      * exists (q ++ [x]). split; [done|].
        rewrite (try_push_ok_state N _ _ _ _ Hpush). simpl.
        rewrite omap_insert_some by apply (represents_tail_raw N s q Hr).
        rewrite Hperm. apply Permutation_cons_append.
    + pose proof (try_pop_spec N HN s q out Hr) as Hpop.
      destruct q as [|y q].
      * destruct Hpop as [_ Hfail]. rewrite Hfail in Hstep. simplify_eq/=.
        by exists [].
      * destruct Hpop as (_ & s1 & Hpop & Hr1). rewrite Hpop in Hstep.
        simplify_eq/=. exists q. split; [done|].
        rewrite (try_pop_ok_state N _ _ _ _ Hpop). simpl.
        apply (Permutation_cons_inv (a := y)).
        rewrite omap_insert_none; [done|].
        by rewrite (represents_head_item N s (y :: q) Hr).
Qed.

End Destruction.

(** X14.  What the destructor leaves behind.  [~SPSCRingBuffer] frees the
    storage without destructing anything: in a reachable state the objects
    abandoned in the slots are exactly the items that are waiting (each once),
    and there is none exactly when the channel is empty.
    (For a channel whose storage size [sizeof(T) * N] fits [size_t].) *)
Theorem destroy_abandons_pending (T : Type) (sz N : Z) (s : state T) :
  valid_capacity N →
  storage_fits sz N →
  reachable sz N s →
  destroy s ≡ₚ pending N s ∧
  (destroy s = [] ↔ head s = tail s).
Proof.
  intros HN Hsz Hs.
  destruct (reachable_live_items N HN sz Hsz s Hs) as (q & Hr & Hperm).
  rewrite (represents_pending N s q Hr). split; [done|].
  rewrite (represents_empty_iff N s q Hr). unfold destroy. split.
  - intros Hnil. rewrite Hnil in Hperm. by apply Permutation_nil.
  - intros ->. by apply Permutation_nil_r.
Qed.

Lemma destroy_abandons_pending_witness :
  let s := State 3 1 [Some 8; None; None; Some 7] in
  valid_capacity 4 ∧ storage_fits 8 4 ∧ reachable 8 4 s ∧
  destroy s ≡ₚ pending 4 s ∧
  (destroy s = [] ↔ head s = tail s).
Proof.
  intros s.
  assert (H4 : valid_capacity 4).
  { split; [unfold in_size_t, size_bits; lia|reflexivity]. }
  assert (Hfit : storage_fits 8 4).
  { unfold storage_fits, size_bits. lia. }
  assert (Hs : reachable 8 4 s).
  { assert (Hrun : run 4 (init Z 8 4)
              [Push 4; Push 5; Push 6; Pop 0; Pop 0; Pop 0; Push 7; Push 8]
            = Some ([Sent 4; Sent 5; Sent 6; Received 4; Received 5; Received 6;
                     Sent 7; Sent 8], s)) by reflexivity.
    exact (run_reachable 4 8 _ _ _ _ (reach_init Z 8 4) Hrun). }
  split; [exact H4|]. split; [exact Hfit|]. split; [exact Hs|].
  exact (destroy_abandons_pending Z 8 4 s H4 Hfit Hs).
Defined.

(** ** The add kernels *)

Section Kernels.

Implicit Types (a b out : list double) (x y : double).

Lemma rd_ok a (m : nat) x : a !! m = Some x → rd a (Z.of_nat m) = Ok x.
Proof.
  intros Hx. unfold rd. destruct (Z.leb_spec 0 (Z.of_nat m)); [|lia].
  by rewrite Nat2Z.id, Hx.
Qed.

Lemma wr_ok out (m : nat) x :
  (m < length out)%nat → wr out (Z.of_nat m) x = Ok (<[m := x]> out).
Proof.
  intros Hm. unfold wr.
  replace ((0 <=? Z.of_nat m) && (Z.of_nat m <? Z.of_nat (length out)))
    with true by (symmetry; apply andb_true_iff; lia).
  by rewrite Nat2Z.id.
Qed.

Lemma summed_upto_0 a b out : summed_upto a b out 0 = out.
Proof. done. Qed.

Lemma summed_upto_all a b out :
  length a = length out → length b = length out →
  summed_upto a b out (length out) = elementwise_sum a b.
Proof.
  intros Ha Hb. unfold summed_upto.
  rewrite drop_all, app_nil_r. by rewrite !take_ge by lia.
Qed.

Lemma length_summed_upto a b out m :
  (m ≤ length a)%nat → (m ≤ length b)%nat → (m ≤ length out)%nat →
  length (summed_upto a b out m) = length out.
Proof.
  intros Ha Hb Hm. unfold summed_upto, elementwise_sum.
  rewrite length_app, length_zip_with, !length_take, length_drop. lia.
Qed.

Lemma summed_upto_S a b out m x y :
  (m < length out)%nat →
  a !! m = Some x → b !! m = Some y →
  <[m := PrimFloat.add x y]> (summed_upto a b out m) = summed_upto a b out (S m).
Proof.
  intros Hout Hx Hy. unfold summed_upto, elementwise_sum.
  pose proof (lookup_lt_Some _ _ _ Hx) as Hm.
  pose proof (lookup_lt_Some _ _ _ Hy) as Hm'.
  rewrite (take_S_r a m x Hx), (take_S_r b m y Hy).
  rewrite zip_with_app by (rewrite !length_take; lia). simpl.
  rewrite insert_app_r_alt; rewrite length_zip_with, !length_take; [|lia].
  replace (m - _)%nat with 0%nat by lia.
  destruct (drop m out) as [|z rest] eqn:Hdrop.
  - apply (f_equal length) in Hdrop. rewrite length_drop in Hdrop.
    simpl in Hdrop. lia.
  - simpl. rewrite <- app_assoc. simpl. do 2 f_equal.
    replace (S m) with (m + 1)%nat by lia. by rewrite <- drop_drop, Hdrop.
Qed.

(** The scalar loop, started at [i] with the first [i] sums in place,
    puts the first [n] sums in place and touches nothing else. *)
Lemma scalar_loop_spec a b out0 (n : nat) :
  (n ≤ length a)%nat → (n ≤ length b)%nat → (n ≤ length out0)%nat →
  in_size_t (Z.of_nat n) →
  ∀ (fuel i : nat), (i ≤ n)%nat → (n - i ≤ fuel)%nat →
    scalar_loop fuel a b (summed_upto a b out0 i) (Z.of_nat n) (Z.of_nat i)
    = Ok (summed_upto a b out0 n).
Proof.
  intros Ha Hb Hout Hn fuel.
  induction fuel as [|fuel IH]; intros i Hi Hfuel; simpl.
  - destruct (Z.ltb_spec (Z.of_nat i) (Z.of_nat n)); [lia|].
    by assert (i = n) as -> by lia.
  - destruct (Z.ltb_spec (Z.of_nat i) (Z.of_nat n)).
    + destruct (lookup_lt_is_Some_2 a i) as [x Hx]; [lia|].
      destruct (lookup_lt_is_Some_2 b i) as [y Hy]; [lia|].
      rewrite (rd_ok a i x Hx), (rd_ok b i y Hy). simpl.
      rewrite wr_ok by (rewrite length_summed_upto; lia). simpl.
      rewrite (summed_upto_S a b out0 i x y) by (done || lia).
      replace (wrap (Z.of_nat i + 1)) with (Z.of_nat (S i)).
      * apply IH; lia.
      * rewrite wrap_small; unfold in_size_t in *; lia.
    + by assert (i = n) as -> by lia.
Qed.

(** The scalar kernel on arrays of at least [n] elements. *)
Lemma scalar_add_prefix a b out (n : Z) :
  in_size_t n →
  n ≤ Z.of_nat (length a) → n ≤ Z.of_nat (length b) → n ≤ Z.of_nat (length out) →
  scalar_add a b out n = Ok (summed_upto a b out (Z.to_nat n)).
Proof.
  intros Hn Ha Hb Hout. unfold scalar_add.
  assert (H0 : 0 ≤ n) by (unfold in_size_t in *; lia).
  rewrite <- (summed_upto_0 a b out) at 1.
  replace n with (Z.of_nat (Z.to_nat n)) at 2 by lia.
  change 0 with (Z.of_nat 0).
  apply scalar_loop_spec; try lia.
  by replace (Z.of_nat (Z.to_nat n)) with n by lia.
Qed.

(** The scalar kernel computes the elementwise sum, for every length. *)
Lemma scalar_add_spec a b out (n : Z) :
  in_size_t n →
  Z.of_nat (length a) = n → Z.of_nat (length b) = n → Z.of_nat (length out) = n →
  scalar_add a b out n = Ok (elementwise_sum a b).
Proof.
  intros Hn Ha Hb Hout. rewrite scalar_add_prefix by (done || lia).
  replace (Z.to_nat n) with (length out) by lia.
  by rewrite summed_upto_all by lia.
Qed.

(** *** Lanes *)

Lemma collect_app {A : Type} (ms1 ms2 : list (outcome A)) v1 v2 :
  collect ms1 = Ok v1 → collect ms2 = Ok v2 →
  collect (ms1 ++ ms2) = Ok (v1 ++ v2).
Proof.
  revert v1. induction ms1 as [|m ms1 IH]; intros v1 H1 H2; simpl in *.
  - by simplify_eq.
  - destruct m as [x| |]; simpl in *; try done.
    destruct (collect ms1) as [xs| |] eqn:Hms1; simpl in *; try done.
    simplify_eq. by rewrite (IH xs eq_refl H2).
Qed.

Lemma collect_cons_ok {A : Type} (m : outcome A) ms (r : A) (rs : list A) :
  m = Ok r → collect ms = Ok rs → collect (m :: ms) = Ok (r :: rs).
Proof. intros -> Hms. simpl. by rewrite Hms. Qed.

Lemma drop_lookup_cons a (m : nat) x : a !! m = Some x → drop m a = x :: drop (S m) a.
Proof.
  revert m. induction a as [|z a IH]; intros [|m] Hx; simplify_eq/=; [done|].
  by apply IH.
Qed.

(** Loading [w] consecutive lanes that are inside the array. *)
Lemma collect_rd a (m w : nat) : ∀ j : nat,
  (m + j + w ≤ length a)%nat →
  collect ((λ l, rd a (Z.of_nat m + l)) <$> (Z.of_nat <$> seq j w))
  = Ok (take w (drop (m + j) a)).
Proof.
  induction w as [|w IH]; intros j Hlen; [done|].
  destruct (lookup_lt_is_Some_2 a (m + j)) as [x Hx]; [lia|].
  rewrite (drop_lookup_cons a (m + j) x Hx).
  rewrite <- cons_seq, !fmap_cons, firstn_cons.
  apply collect_cons_ok.
  - replace (Z.of_nat m + Z.of_nat j) with (Z.of_nat (m + j)) by lia.
    by apply rd_ok.
  - rewrite (IH (S j)) by lia.
    by replace (m + S j)%nat with (S (m + j)) by lia.
Qed.

(** Lanes the mask leaves out are zero. *)
Lemma collect_masked_off a (k : Z) (m w : nat) (c : nat) : ∀ j : nat,
  (j + c ≤ w)%nat →
  (∀ l : nat, (j ≤ l < w)%nat → Z.testbit k (Z.of_nat l) = false) →
  collect ((λ l, if Z.testbit k l then rd a (Z.of_nat m + l) else Ok 0%float)
             <$> (Z.of_nat <$> seq j c))
  = Ok (replicate c 0%float).
Proof.
  induction c as [|c IH]; intros j Hjc Hbits; [done|].
  rewrite <- cons_seq, !fmap_cons. apply collect_cons_ok.
  - by rewrite Hbits by lia.
  - apply IH; [lia|]. intros l Hl. apply Hbits. lia.
Qed.

(** A load where the mask selects the lanes below [r] and no others. *)
Lemma collect_masked_rd a (k : Z) (m r w : nat) :
  (r ≤ w)%nat → (m + r ≤ length a)%nat →
  (∀ l : nat, (l < w)%nat → Z.testbit k (Z.of_nat l) = bool_decide (l < r)%nat) →
  collect ((λ l, if Z.testbit k l then rd a (Z.of_nat m + l) else Ok 0%float)
             <$> (Z.of_nat <$> seq 0 w))
  = Ok (take r (drop m a) ++ replicate (w - r) 0%float).
Proof.
  intros Hr Hlen Hbits.
  replace w with (r + (w - r))%nat at 1 by lia.
  rewrite seq_app, !fmap_app. apply collect_app.
  - pose proof (collect_rd a m r 0 ltac:(lia)) as Hload.
    rewrite Nat.add_0_r in Hload. rewrite <- Hload. f_equal.
    rewrite <- !list_fmap_compose. apply list_fmap_ext; simpl.
    intros i l Hl. apply lookup_seq in Hl as [-> Hl]. simpl.
    rewrite Hbits by lia. by rewrite bool_decide_eq_true_2 by lia.
  - apply (collect_masked_off a k m w); [lia|].
    intros l Hl. rewrite Hbits by lia. by rewrite bool_decide_eq_false_2 by lia.
Qed.

Lemma store_lanes_off out (i k : Z) v : ∀ j : nat,
  (∀ l : nat, (j ≤ l < j + length v)%nat → Z.testbit k (Z.of_nat l) = false) →
  store_lanes out i k (Z.of_nat j) v = Ok out.
Proof.
  induction v as [|z v IH]; intros j Hbits; [done|].
  simpl in *. rewrite Hbits by lia. simpl.
  replace (Z.of_nat j + 1) with (Z.of_nat (S j)) by lia.
  apply IH. intros l Hl. apply Hbits. lia.
Qed.

Lemma store_lanes_app out (i k : Z) v1 v2 : ∀ (j : nat) out1,
  store_lanes out i k (Z.of_nat j) v1 = Ok out1 →
  store_lanes out i k (Z.of_nat j) (v1 ++ v2)
  = store_lanes out1 i k (Z.of_nat (j + length v1)) v2.
Proof.
  revert out. induction v1 as [|z v1 IH]; intros out j out1 H1; simpl in *.
  - simplify_eq. by rewrite Nat.add_0_r.
  - destruct (if Z.testbit k (Z.of_nat j) then wr out (i + Z.of_nat j) z else Ok out)
      as [out'| |]; simpl in *; try done.
    replace (Z.of_nat j + 1) with (Z.of_nat (S j)) in * by lia.
    rewrite (IH out' (S j) out1 H1). do 2 f_equal. lia.
Qed.

(** The mask of the cleanup selects the first [remaining] lanes, and all
    eight of them when [remaining] is eight or more. *)
Lemma cleanup_mask_bits (r : Z) (l : nat) :
  0 ≤ r < 32 → (l < 8)%nat →
  Z.testbit ((Z.shiftl 1 r - 1) mod 2 ^ 8) (Z.of_nat l)
  = bool_decide (l < Z.to_nat (Z.min r 8))%nat.
Proof.
  intros Hr Hl. rewrite Z.shiftl_1_l.
  replace (2 ^ r - 1) with (Z.ones r) by (rewrite Z.ones_equiv; lia).
  rewrite Z.mod_pow2_bits_low by lia.
  destruct (decide (Z.of_nat l < r)) as [Hlt|Hge].
  - rewrite Z.ones_spec_low by lia. by rewrite bool_decide_eq_true_2 by lia.
  - rewrite Z.ones_spec_high by lia. by rewrite bool_decide_eq_false_2 by lia.
Qed.

Lemma full_mask_bits (w : Z) (l : nat) :
  0 ≤ Z.of_nat l < w → Z.testbit (Z.ones w) (Z.of_nat l) = true.
Proof. intros Hl. by apply Z.ones_spec_low. Qed.

(** With 31 positions left the mask cannot be computed. *)
Lemma avx512_cleanup_undefined a b out (n m : Z) :
  n - m = 31 → avx512_cleanup a b out n m = Undefined.
Proof.
  intros Hm. unfold avx512_cleanup.
  destruct (Z.ltb_spec m n) as [Hlt|Hge]; [|lia].
  by rewrite Hm.
Qed.

Section Summing.

Variables (a b out0 : list float) (n : nat).
Hypothesis Ha : (n ≤ length a)%nat.
Hypothesis Hb : (n ≤ length b)%nat.
Hypothesis Hout : (n ≤ length out0)%nat.

(** Storing the sums of [w] lanes that the mask selects, on top of the sums
    already in place. *)
Lemma store_lanes_sum (k : Z) (m w : nat) : ∀ j : nat,
  (∀ l : nat, (j ≤ l < j + w)%nat → Z.testbit k (Z.of_nat l) = true) →
  (m + j + w ≤ n)%nat →
  store_lanes (summed_upto a b out0 (m + j)) (Z.of_nat m) k (Z.of_nat j)
    (zip_with PrimFloat.add (take w (drop (m + j) a)) (take w (drop (m + j) b)))
  = Ok (summed_upto a b out0 (m + j + w)).
Proof.
  induction w as [|w IH]; intros j Hbits Hlen.
  - simpl. by rewrite Nat.add_0_r.
  - destruct (lookup_lt_is_Some_2 a (m + j)) as [x Hx]; [lia|].
    destruct (lookup_lt_is_Some_2 b (m + j)) as [y Hy]; [lia|].
    rewrite (drop_lookup_cons a (m + j) x Hx), (drop_lookup_cons b (m + j) y Hy).
    simpl. rewrite Hbits by lia.
    replace (Z.of_nat m + Z.of_nat j) with (Z.of_nat (m + j)) by lia.
    rewrite wr_ok by (rewrite length_summed_upto; lia). simpl.
    rewrite (summed_upto_S a b out0 (m + j) x y) by (done || lia).
    replace (Z.of_nat j + 1) with (Z.of_nat (S j)) by lia.
    replace (S (m + j)) with (m + S j)%nat by lia.
    rewrite IH; [do 2 f_equal; lia| |lia].
    intros l Hl. apply Hbits. lia.
Qed.

Lemma add_group_spec (m : nat) :
  (m + 8 ≤ n)%nat →
  add_group a b (summed_upto a b out0 m) (Z.of_nat m)
  = Ok (summed_upto a b out0 (m + 8)).
Proof.
  intros Hm. unfold add_group, mm512_loadu_pd, mm512_storeu_pd, mm512_add_pd.
  change lanes with (Z.of_nat <$> seq 0 8).
  rewrite (collect_rd a m 8 0), (collect_rd b m 8 0) by lia.
  cbn [mbind outcome_bind].
  pose proof (store_lanes_sum 255 m 8 0) as Hstore.
  rewrite !Nat.add_0_r in *. apply Hstore; [|lia].
  intros l Hl. apply (full_mask_bits 8). lia.
Qed.

(** The unrolled loop leaves fewer than 32 positions, all sums before them
    in place. *)
Lemma avx512_loop_spec :
  8 * Z.of_nat n < 2 ^ size_bits →
  ∀ (fuel m : nat), (m ≤ n)%nat → (n - m ≤ fuel)%nat →
    ∃ m' : nat,
      avx512_loop fuel a b (summed_upto a b out0 m) (Z.of_nat n) (Z.of_nat m)
      = Ok (Z.of_nat m', summed_upto a b out0 m') ∧
      (m ≤ m' ≤ n)%nat ∧ (n - m' < 32)%nat ∧ ∃ c : nat, m' = (m + 32 * c)%nat.
Proof.
  intros Hfit fuel.
  assert (Hwrap : ∀ (m : nat) (d : Z), (m ≤ n)%nat → 0 ≤ d ≤ 32 →
            wrap (Z.of_nat m + d) = Z.of_nat m + d).
  { intros m d Hm Hd. rewrite wrap_small; unfold in_size_t, size_bits in *; lia. }
  induction fuel as [|fuel IH]; intros m Hm Hfuel.
  - exists m. simpl. rewrite (Hwrap m 31) by lia.
    destruct (Z.ltb_spec (Z.of_nat m + 31) (Z.of_nat n)); [lia|].
    split; [done|]. split; [lia|]. split; [lia|]. exists 0%nat. lia.
  - cbn [avx512_loop]. rewrite (Hwrap m 31) by lia.
    destruct (Z.ltb_spec (Z.of_nat m + 31) (Z.of_nat n)).
    + rewrite add_group_spec by lia. cbn [mbind outcome_bind].
      replace (Z.of_nat m + 8) with (Z.of_nat (m + 8)) by lia.
      rewrite add_group_spec by lia. cbn [mbind outcome_bind].
      replace (Z.of_nat m + 16) with (Z.of_nat (m + 8 + 8)) by lia.
      rewrite add_group_spec by lia. cbn [mbind outcome_bind].
      replace (Z.of_nat m + 24) with (Z.of_nat (m + 8 + 8 + 8)) by lia.
      rewrite add_group_spec by lia. cbn [mbind outcome_bind].
      rewrite (Hwrap m 32) by lia.
      replace (Z.of_nat m + 32) with (Z.of_nat (m + 32)) by lia.
      replace (m + 8 + 8 + 8 + 8)%nat with (m + 32)%nat by lia.
      destruct (IH (m + 32)%nat) as (m' & Hloop & Hm' & Hrest & c & Hc); [lia..|].
      exists m'. split; [done|]. split; [lia|]. split; [lia|].
      exists (S c). lia.
    + exists m. split; [done|]. split; [lia|]. split; [lia|]. exists 0%nat. lia.
Qed.

(** The cleanup stores at most eight of the positions that are left. *)
Lemma avx512_cleanup_spec (m : nat) :
  (m ≤ n)%nat → (n - m < 31)%nat →
  avx512_cleanup a b (summed_upto a b out0 m) (Z.of_nat n) (Z.of_nat m)
  = Ok (summed_upto a b out0 (m + (n - m) `min` 8)).
Proof.
  intros Hm Hrest. unfold avx512_cleanup.
  destruct (Z.ltb_spec (Z.of_nat m) (Z.of_nat n)) as [Hlt|Hge].
  - rewrite (Z.mod_small (Z.of_nat n - Z.of_nat m)) by lia.
    destruct (Z.ltb_spec (Z.of_nat n - Z.of_nat m) 31); [|lia].
    set (k := (Z.shiftl 1 (Z.of_nat n - Z.of_nat m) - 1) mod 2 ^ 8).
    set (r := ((n - m) `min` 8)%nat).
    assert (Hbits : ∀ l : nat, (l < 8)%nat →
              Z.testbit k (Z.of_nat l) = bool_decide (l < r)%nat).
    { intros l Hl. unfold k. rewrite cleanup_mask_bits by lia.
      apply bool_decide_ext. unfold r. lia. }
    unfold mm512_maskz_loadu_pd, mm512_mask_storeu_pd, mm512_add_pd.
    change lanes with (Z.of_nat <$> seq 0 8).
    rewrite (collect_masked_rd a k m r 8), (collect_masked_rd b k m r 8)
      by (done || unfold r; lia).
    cbn [mbind outcome_bind].
    rewrite zip_with_app by (rewrite !length_take, !length_drop; lia).
    assert (Hsum : store_lanes (summed_upto a b out0 m) (Z.of_nat m) k (Z.of_nat 0)
              (zip_with PrimFloat.add (take r (drop m a)) (take r (drop m b)))
            = Ok (summed_upto a b out0 (m + r))).
    { pose proof (store_lanes_sum k m r 0) as Hsum.
      rewrite !Nat.add_0_r in Hsum. apply Hsum; [|unfold r; lia].
      intros l Hl. rewrite Hbits by (unfold r in *; lia).
      by rewrite bool_decide_eq_true_2 by lia. }
    rewrite (store_lanes_app _ _ _ _ _ 0 _ Hsum).
    apply store_lanes_off. intros l Hl.
    rewrite !length_zip_with, !length_take, !length_drop, !length_replicate in Hl.
    rewrite Hbits by (unfold r in *; lia).
    by rewrite bool_decide_eq_false_2 by (unfold r in *; lia).
  - assert (m = n) as -> by lia.
    by replace (n + (n - n) `min` 8)%nat with n by lia.
Qed.

(** The AVX2 loop leaves all sums before its final index in place. *)
Lemma avx2_loop_spec :
  8 * Z.of_nat n < 2 ^ size_bits →
  ∀ (fuel m : nat), (m ≤ n)%nat → (n - m ≤ fuel)%nat →
    ∃ m' : nat,
      avx2_loop fuel a b (summed_upto a b out0 m) (Z.of_nat n) (Z.of_nat m)
      = Ok (Z.of_nat m', summed_upto a b out0 m') ∧ (m ≤ m' ≤ n)%nat.
Proof.
  intros Hfit fuel.
  assert (Hwrap : ∀ (m : nat) (d : Z), (m ≤ n)%nat → 0 ≤ d ≤ 32 →
            wrap (Z.of_nat m + d) = Z.of_nat m + d).
  { intros m d Hm Hd. rewrite wrap_small; unfold in_size_t, size_bits in *; lia. }
  induction fuel as [|fuel IH]; intros m Hm Hfuel.
  - exists m. simpl. rewrite (Hwrap m 3) by lia.
    destruct (Z.ltb_spec (Z.of_nat m + 3) (Z.of_nat n)); [lia|]. by split; [|lia].
  - cbn [avx2_loop]. rewrite (Hwrap m 3) by lia.
    destruct (Z.ltb_spec (Z.of_nat m + 3) (Z.of_nat n)).
    + unfold mm256_loadu_pd, mm256_storeu_pd, mm256_add_pd.
      change lanes4 with (Z.of_nat <$> seq 0 4).
      rewrite (collect_rd a m 4 0), (collect_rd b m 4 0) by lia.
      cbn [mbind outcome_bind].
      pose proof (store_lanes_sum 15 m 4 0) as Hstore.
      rewrite !Nat.add_0_r in *. change (Z.of_nat 0) with 0 in Hstore.
      rewrite Hstore; [|
        intros l Hl; apply (full_mask_bits 4); lia|lia].
      cbn [mbind outcome_bind]. rewrite (Hwrap m 4) by lia.
      replace (Z.of_nat m + 4) with (Z.of_nat (m + 4)) by lia.
      destruct (IH (m + 4)%nat) as (m' & Hloop & Hm'); [lia..|].
      exists m'. by split; [|lia].
    + exists m. by split; [|lia].
Qed.

End Summing.

(** The AVX2 kernel on arrays of at least [n] elements: its cleanup is the
    scalar loop, and all of the first [n] sums are put in place. *)
Lemma avx2_add_prefix a b out (n : Z) :
  0 ≤ n → 8 * n < 2 ^ size_bits →
  n ≤ Z.of_nat (length a) → n ≤ Z.of_nat (length b) → n ≤ Z.of_nat (length out) →
  avx2_add a b out n = Ok (summed_upto a b out (Z.to_nat n)).
Proof.
  intros Hn Hfit Ha Hb Hout. unfold avx2_add.
  destruct (avx2_loop_spec a b out (Z.to_nat n)
              ltac:(lia) ltac:(lia) ltac:(lia) ltac:(lia) (Z.to_nat n) 0%nat)
    as (m' & Hloop & Hm'); [lia..|].
  rewrite summed_upto_0, Z2Nat.id in Hloop by lia.
  change (Z.of_nat 0) with 0 in Hloop. rewrite Hloop. cbn [mbind outcome_bind].
  pose proof (scalar_loop_spec a b out (Z.to_nat n)
                ltac:(lia) ltac:(lia) ltac:(lia)) as Hscalar.
  rewrite Z2Nat.id in Hscalar by lia.
  apply Hscalar; [unfold in_size_t, size_bits in *|..]; lia.
Qed.

(** The AVX2 kernel, whose cleanup is the scalar loop, computes the
    elementwise sum for every length. *)
Lemma avx2_add_spec a b out (n : Z) :
  0 ≤ n → 8 * n < 2 ^ size_bits →
  Z.of_nat (length a) = n → Z.of_nat (length b) = n → Z.of_nat (length out) = n →
  avx2_add a b out n = Ok (elementwise_sum a b).
Proof.
  intros Hn Hfit Ha Hb Hout. rewrite avx2_add_prefix by (done || lia).
  replace (Z.to_nat n) with (length out) by lia.
  by rewrite summed_upto_all by lia.
Qed.

(** The AVX-512 kernel on arrays of at least [n] elements, for the lengths
    for which the mask of its cleanup can be computed. *)
Lemma avx512_add_prefix a b out (n : Z) :
  0 ≤ n → 8 * n < 2 ^ size_bits →
  n ≤ Z.of_nat (length a) → n ≤ Z.of_nat (length b) → n ≤ Z.of_nat (length out) →
  n mod 32 ≠ 31 →
  avx512_add a b out n = Ok (summed_upto a b out (Z.to_nat (avx512_stored n))).
Proof.
  intros Hn Hfit Ha Hb Hout H31. unfold avx512_add.
  destruct (avx512_loop_spec a b out (Z.to_nat n)
              ltac:(lia) ltac:(lia) ltac:(lia) ltac:(lia) (Z.to_nat n) 0%nat)
    as (m' & Hloop & Hm' & Hrest & c & Hc); [lia..|].
  rewrite summed_upto_0, Z2Nat.id in Hloop by lia.
  change (Z.of_nat 0) with 0 in Hloop. rewrite Hloop. cbn [mbind outcome_bind].
  assert (n / 32 = Z.of_nat c ∧ n mod 32 = n - 32 * Z.of_nat c) as [Hquot Hrem].
  { assert (n = 32 * Z.of_nat c + (n - 32 * Z.of_nat c)) as Hdiv by lia.
    split.
    - symmetry. apply (Z.div_unique n 32 _ (n - 32 * Z.of_nat c)); lia.
    - symmetry. apply (Z.mod_unique n 32 (Z.of_nat c)); lia. }
  pose proof (avx512_cleanup_spec a b out (Z.to_nat n)
                ltac:(lia) ltac:(lia) ltac:(lia) m' ltac:(lia) ltac:(lia)) as Hclean.
  rewrite Z2Nat.id in Hclean by lia. rewrite Hclean. do 2 f_equal.
  unfold avx512_stored. rewrite Hquot, Hrem. lia.
Qed.

(** For the other lengths, [n mod 32 = 31], the kernel's behaviour is
    undefined: [(1 << 31) - 1] overflows [int]. *)
Lemma avx512_add_undefined a b out (n : Z) :
  0 ≤ n → 8 * n < 2 ^ size_bits →
  n ≤ Z.of_nat (length a) → n ≤ Z.of_nat (length b) → n ≤ Z.of_nat (length out) →
  n mod 32 = 31 →
  avx512_add a b out n = Undefined.
Proof.
  intros Hn Hfit Ha Hb Hout H31. unfold avx512_add.
  destruct (avx512_loop_spec a b out (Z.to_nat n)
              ltac:(lia) ltac:(lia) ltac:(lia) ltac:(lia) (Z.to_nat n) 0%nat)
    as (m' & Hloop & Hm' & Hrest & c & Hc); [lia..|].
  rewrite summed_upto_0, Z2Nat.id in Hloop by lia.
  change (Z.of_nat 0) with 0 in Hloop. rewrite Hloop. cbn [mbind outcome_bind].
  assert (n mod 32 = n - 32 * Z.of_nat c) as Hrem.
  { symmetry. apply (Z.mod_unique n 32 (Z.of_nat c)); lia. }
  apply avx512_cleanup_undefined. lia.
Qed.

(** What the AVX-512 kernel computes, for every length for which it is
    defined: the sums at the first [avx512_stored n] positions, and [out] as
    it was from there on. *)
Lemma avx512_add_spec a b out (n : Z) :
  0 ≤ n → 8 * n < 2 ^ size_bits →
  Z.of_nat (length a) = n → Z.of_nat (length b) = n → Z.of_nat (length out) = n →
  n mod 32 ≠ 31 →
  avx512_add a b out n = Ok (summed_upto a b out (Z.to_nat (avx512_stored n))).
Proof. intros Hn Hfit Ha Hb Hout H31. apply avx512_add_prefix; lia. Qed.

Lemma avx512_stored_le (n : Z) : 0 ≤ n → 0 ≤ avx512_stored n ≤ n.
Proof.
  intros Hn. unfold avx512_stored.
  pose proof (Z.div_mod n 32 ltac:(lia)).
  pose proof (Z.mod_pos_bound n 32 ltac:(lia)). lia.
Qed.

Lemma avx512_stored_all (n : Z) : 0 ≤ n → n mod 32 ≤ 8 → avx512_stored n = n.
Proof.
  intros Hn Hrem. unfold avx512_stored.
  pose proof (Z.div_mod n 32 ltac:(lia)). lia.
Qed.

Lemma avx512_stored_short (n : Z) : 0 ≤ n → 8 < n mod 32 → avx512_stored n < n.
Proof.
  intros Hn Hrem. unfold avx512_stored.
  pose proof (Z.div_mod n 32 ltac:(lia)). lia.
Qed.

(** Where the two kernels agree: lengths that leave at most eight elements
    after the 32-element blocks. *)
Lemma avx512_add_agrees a b out (n : Z) :
  0 ≤ n → 8 * n < 2 ^ size_bits →
  Z.of_nat (length a) = n → Z.of_nat (length b) = n → Z.of_nat (length out) = n →
  n mod 32 ≤ 8 →
  avx512_add a b out n = scalar_add a b out n.
Proof.
  intros Hn Hfit Ha Hb Hout Hrem.
  rewrite avx512_add_spec, scalar_add_spec
    by (done || unfold in_size_t, size_bits in *; lia).
  rewrite avx512_stored_all by done.
  replace (Z.to_nat n) with (length out) by lia.
  by rewrite summed_upto_all by lia.
Qed.

(** Where they do not: for the other lengths for which it is defined the
    AVX-512 kernel returns with the positions from [avx512_stored n] on
    holding what [out] held before. *)
Lemma avx512_add_tail_untouched a b out (n : Z) :
  0 ≤ n → 8 * n < 2 ^ size_bits →
  Z.of_nat (length a) = n → Z.of_nat (length b) = n → Z.of_nat (length out) = n →
  8 < n mod 32 < 31 →
  ∃ out', avx512_add a b out n = Ok out' ∧
          out' !! Z.to_nat (n - 1) = out !! Z.to_nat (n - 1) ∧
          ∀ i : nat, avx512_stored n ≤ Z.of_nat i → out' !! i = out !! i.
Proof.
  intros Hn Hfit Ha Hb Hout Hrem.
  pose proof (avx512_stored_le n Hn) as Hle.
  pose proof (avx512_stored_short n Hn ltac:(lia)) as Hlt.
  rewrite avx512_add_spec by (done || lia). eexists. split; [reflexivity|].
  assert (Hlook : ∀ i : nat, avx512_stored n ≤ Z.of_nat i →
            summed_upto a b out (Z.to_nat (avx512_stored n)) !! i = out !! i).
  { intros i Hi. unfold summed_upto, elementwise_sum.
    rewrite lookup_app_r; rewrite length_zip_with, !length_take; [|lia].
    rewrite lookup_drop. f_equal. lia. }
  split; [apply Hlook; lia|done].
Qed.

End Kernels.

(** ** The claims of the specification: the add kernels *)

(** C9.  The AVX-512 specialization against the scalar baseline, at length
    [9].  The scalar kernel returns the nine sums; the AVX-512 kernel returns
    the first eight and leaves [out[8]] as it was, because the cleanup mask
    [(1 << 9) - 1] is cut to the eight bits of [__mmask8].  The two kernels
    do not produce the same output for every length. *)
Theorem avx512_add_differs_from_scalar :
  let a := [1; 2; 3; 4; 5; 6; 7; 8; 9]%float in
  let b := [10; 20; 30; 40; 50; 60; 70; 80; 90]%float in
  let out := replicate 9 0%float in
  scalar_add a b out 9 = Ok [11; 22; 33; 44; 55; 66; 77; 88; 99]%float ∧
  avx512_add a b out 9 = Ok [11; 22; 33; 44; 55; 66; 77; 88; 0]%float ∧
  avx512_add a b out 9 ≠ scalar_add a b out 9.
Proof.
  intros a b out.
  assert (Hs : scalar_add a b out 9
               = Ok [11; 22; 33; 44; 55; 66; 77; 88; 99]%float)
    by (vm_compute; reflexivity).
  assert (Hv : avx512_add a b out 9
               = Ok [11; 22; 33; 44; 55; 66; 77; 88; 0]%float)
    by (vm_compute; reflexivity).
  split; [done|]. split; [done|].
  rewrite Hs, Hv. intros Heq.
  assert (Hlast : 0%float = 99%float) by congruence.
  apply (f_equal (PrimFloat.eqb 0%float)) in Hlast.
  vm_compute in Hlast. discriminate.
Qed.

(** ** Further properties of the kernels *)

Lemma summed_upto_stored (a b out : list float) (m : nat) :
  (m ≤ length a)%nat → (m ≤ length b)%nat → (m ≤ length out)%nat →
  sums_stored a b out (summed_upto a b out m) (Z.of_nat m).
Proof.
  intros Ha Hb Hout. split; [by apply length_summed_upto|]. split.
  - intros i x y Hi Hx Hy. unfold summed_upto, elementwise_sum.
    rewrite lookup_app_l by (rewrite length_zip_with, !length_take; lia).
    apply lookup_zip_with_Some. exists x, y.
    by rewrite !lookup_take_lt by lia.
  - intros i Hi. unfold summed_upto, elementwise_sum.
    rewrite lookup_app_r; rewrite length_zip_with, !length_take; [|lia].
    rewrite lookup_drop. f_equal. lia.
Qed.

(** X7.  The scalar kernel, on arrays of at least [n] elements: it returns
    (no access is out of bounds), [out[i] = a[i] + b[i]] for every [i < n],
    and the elements of [out] from [n] on are not touched. *)
Theorem scalar_add_stores_sums (a b out : list float) (n : Z) :
  in_size_t n →
  n ≤ Z.of_nat (length a) → n ≤ Z.of_nat (length b) → n ≤ Z.of_nat (length out) →
  ∃ out', scalar_add a b out n = Ok out' ∧ sums_stored a b out out' n.
Proof.
  intros Hn Ha Hb Hout. eexists. split; [by apply scalar_add_prefix|].
  assert (H0 : 0 ≤ n) by (unfold in_size_t in Hn; lia).
  rewrite <- (Z2Nat.id n) at 2 by done.
  apply summed_upto_stored; lia.
Qed.

Lemma scalar_add_stores_sums_witness :
  let a := [1; 2; 3; 4]%float in
  let b := [10; 20; 30]%float in
  let out := [0; 0; 0; 0; 0]%float in
  in_size_t 3 ∧
  3 ≤ Z.of_nat (length a) ∧ 3 ≤ Z.of_nat (length b) ∧ 3 ≤ Z.of_nat (length out) ∧
  ∃ out', scalar_add a b out 3 = Ok out' ∧ sums_stored a b out out' 3.
Proof.
  intros a b out.
  assert (Hn : in_size_t 3) by (unfold in_size_t, size_bits; lia).
  assert (Ha : 3 ≤ Z.of_nat (length a)) by (simpl; lia).
  assert (Hb : 3 ≤ Z.of_nat (length b)) by (simpl; lia).
  assert (Hout : 3 ≤ Z.of_nat (length out)) by (simpl; lia).
  split; [exact Hn|]. split; [exact Ha|]. split; [exact Hb|]. split; [exact Hout|].
  exact (scalar_add_stores_sums a b out 3 Hn Ha Hb Hout).
Defined.

(** X8.  The AVX2 kernel, on arrays of at least [n] elements: for every
    length, a multiple of four or not, it returns with [out[i] = a[i] + b[i]]
    for every [i < n] and the rest of [out] untouched, as the scalar kernel
    does. *)
Theorem avx2_add_stores_sums (a b out : list float) (n : Z) :
  0 ≤ n → 8 * n < 2 ^ size_bits →
  n ≤ Z.of_nat (length a) → n ≤ Z.of_nat (length b) → n ≤ Z.of_nat (length out) →
  ∃ out', avx2_add a b out n = Ok out' ∧ sums_stored a b out out' n ∧
          scalar_add a b out n = Ok out'.
Proof.
  intros Hn Hfit Ha Hb Hout. eexists. split; [by apply avx2_add_prefix|]. split.
  - rewrite <- (Z2Nat.id n) at 2 by done. apply summed_upto_stored; lia.
  - apply scalar_add_prefix; [unfold in_size_t, size_bits in *|..]; lia.
Qed.

Lemma avx2_add_stores_sums_witness :
  let a := [1; 2; 3; 4; 5; 6; 7]%float in
  let b := [10; 20; 30; 40; 50; 60]%float in
  let out := [0; 0; 0; 0; 0; 0; 0; 0]%float in
  0 ≤ 6 ∧ 8 * 6 < 2 ^ size_bits ∧
  6 ≤ Z.of_nat (length a) ∧ 6 ≤ Z.of_nat (length b) ∧ 6 ≤ Z.of_nat (length out) ∧
  ∃ out', avx2_add a b out 6 = Ok out' ∧ sums_stored a b out out' 6 ∧
          scalar_add a b out 6 = Ok out'.
Proof.
  intros a b out.
  assert (Hn : 0 ≤ 6) by lia.
  assert (Hfit : 8 * 6 < 2 ^ size_bits) by (unfold size_bits; lia).
  assert (Ha : 6 ≤ Z.of_nat (length a)) by (simpl; lia).
  assert (Hb : 6 ≤ Z.of_nat (length b)) by (simpl; lia).
  assert (Hout : 6 ≤ Z.of_nat (length out)) by (simpl; lia).
  split; [exact Hn|]. split; [exact Hfit|].
  split; [exact Ha|]. split; [exact Hb|]. split; [exact Hout|].
  exact (avx2_add_stores_sums a b out 6 Hn Hfit Ha Hb Hout).
Defined.

(** X9.  The AVX-512 kernel, on arrays of at least [n] elements, for every
    length but those with [n mod 32 = 31] (where the mask computation
    [(1 << 31) - 1] overflows [int] and the behaviour is undefined): it
    returns (the masked loads and stores of the cleanup access nothing out of
    bounds), having stored the sums at the first
    [32 * (n / 32) + min (n mod 32) 8] positions and nothing else: never
    beyond [n], and short of [n] by [n mod 32 - 8] positions when [n mod 32]
    exceeds [8]. *)
Theorem avx512_add_stores_sums (a b out : list float) (n : Z) :
  0 ≤ n → 8 * n < 2 ^ size_bits →
  n ≤ Z.of_nat (length a) → n ≤ Z.of_nat (length b) → n ≤ Z.of_nat (length out) →
  n mod 32 ≠ 31 →
  ∃ out', avx512_add a b out n = Ok out' ∧
          sums_stored a b out out' (avx512_stored n) ∧
          avx512_stored n = n - Z.max 0 (n mod 32 - 8).
Proof.
  intros Hn Hfit Ha Hb Hout H31.
  pose proof (avx512_stored_le n Hn) as Hle.
  eexists. split; [by apply avx512_add_prefix|]. split.
  - rewrite <- (Z2Nat.id (avx512_stored n)) at 2 by lia.
    apply summed_upto_stored; lia.
  - unfold avx512_stored. pose proof (Z.div_mod n 32 ltac:(lia)). lia.
Qed.

Lemma avx512_add_stores_sums_witness :
  let a := [1; 2; 3; 4; 5; 6; 7; 8; 9; 10; 11]%float in
  let b := [10; 20; 30; 40; 50; 60; 70; 80; 90; 100]%float in
  let out := [0; 0; 0; 0; 0; 0; 0; 0; 0; 0; 0; 0]%float in
  0 ≤ 10 ∧ 8 * 10 < 2 ^ size_bits ∧
  10 ≤ Z.of_nat (length a) ∧ 10 ≤ Z.of_nat (length b) ∧
  10 ≤ Z.of_nat (length out) ∧ 10 mod 32 ≠ 31 ∧
  ∃ out', avx512_add a b out 10 = Ok out' ∧
          sums_stored a b out out' (avx512_stored 10) ∧
          avx512_stored 10 = 10 - Z.max 0 (10 mod 32 - 8).
Proof.
  intros a b out.
  assert (Hn : 0 ≤ 10) by lia.
  assert (Hfit : 8 * 10 < 2 ^ size_bits) by (unfold size_bits; lia).
  assert (Ha : 10 ≤ Z.of_nat (length a)) by (simpl; lia).
  assert (Hb : 10 ≤ Z.of_nat (length b)) by (simpl; lia).
  assert (Hout : 10 ≤ Z.of_nat (length out)) by (simpl; lia).
  assert (H31 : 10 mod 32 ≠ 31) by (vm_compute; discriminate).
  split; [exact Hn|]. split; [exact Hfit|].
  split; [exact Ha|]. split; [exact Hb|]. split; [exact Hout|].
  split; [exact H31|].
  exact (avx512_add_stores_sums a b out 10 Hn Hfit Ha Hb Hout H31).
Defined.

(** X10.  Where the AVX-512 kernel is right.  For every length that leaves at
    most eight elements after the blocks of 32 ([n mod 32 ≤ 8]), the AVX-512
    kernel and the scalar kernel return the same array. *)
Theorem avx512_add_matches_scalar (a b out : list float) (n : Z) :
  0 ≤ n → 8 * n < 2 ^ size_bits →
  n ≤ Z.of_nat (length a) → n ≤ Z.of_nat (length b) → n ≤ Z.of_nat (length out) →
  n mod 32 ≤ 8 →
  ∃ out', avx512_add a b out n = Ok out' ∧ scalar_add a b out n = Ok out' ∧
          sums_stored a b out out' n.
Proof.
  intros Hn Hfit Ha Hb Hout Hrem.
  exists (summed_upto a b out (Z.to_nat n)). split; [|split].
  - rewrite avx512_add_prefix by (done || lia). by rewrite avx512_stored_all.
  - apply scalar_add_prefix; [unfold in_size_t, size_bits in *|..]; lia.
  - rewrite <- (Z2Nat.id n) at 2 by done. apply summed_upto_stored; lia.
Qed.

Lemma avx512_add_matches_scalar_witness :
  let a := [1; 2; 3; 4; 5; 6; 7; 8]%float in
  let b := [10; 20; 30; 40; 50; 60; 70; 80]%float in
  let out := [0; 0; 0; 0; 0; 0; 0; 0]%float in
  0 ≤ 8 ∧ 8 * 8 < 2 ^ size_bits ∧
  8 ≤ Z.of_nat (length a) ∧ 8 ≤ Z.of_nat (length b) ∧ 8 ≤ Z.of_nat (length out) ∧
  8 mod 32 ≤ 8 ∧
  ∃ out', avx512_add a b out 8 = Ok out' ∧ scalar_add a b out 8 = Ok out' ∧
          sums_stored a b out out' 8.
Proof.
  intros a b out.
  assert (Hn : 0 ≤ 8) by lia.
  assert (Hfit : 8 * 8 < 2 ^ size_bits) by (unfold size_bits; lia).
  assert (Ha : 8 ≤ Z.of_nat (length a)) by (simpl; lia).
  assert (Hb : 8 ≤ Z.of_nat (length b)) by (simpl; lia).
  assert (Hout : 8 ≤ Z.of_nat (length out)) by (simpl; lia).
  assert (Hrem : 8 mod 32 ≤ 8) by (vm_compute; discriminate).
  split; [exact Hn|]. split; [exact Hfit|].
  split; [exact Ha|]. split; [exact Hb|]. split; [exact Hout|].
  split; [exact Hrem|].
  exact (avx512_add_matches_scalar a b out 8 Hn Hfit Ha Hb Hout Hrem).
Defined.

Section DotProductFacts.

Variable fmadd : float → float → float → float.
Variable reduce_add : list float → float.
Variable tail_muladd : float → float → float → float.
Variables (a b : list float) (n : nat).
Hypothesis Ha : (n ≤ length a)%nat.
Hypothesis Hb : (n ≤ length b)%nat.
Hypothesis Hfit : 8 * Z.of_nat n < 2 ^ size_bits.

(** The vector loop, [j] blocks done, does the remaining [d] full blocks. *)
Lemma dot_loop_spec (d : nat) : ∀ (fuel j : nat) (sum : list float),
  (j + d = n / 8)%nat → (d ≤ fuel)%nat →
  dot_loop fmadd fuel a b (Z.of_nat n) (Z.of_nat (8 * j)) sum
  = Ok (Z.of_nat (8 * (n / 8)),
        foldl (λ sum vs, mm512_fmadd_pd fmadd vs.1 vs.2 sum) sum
          (zip (reshape (replicate d 8%nat) (drop (8 * j) a))
               (reshape (replicate d 8%nat) (drop (8 * j) b)))).
Proof.
  pose proof (Nat.div_mod_eq n 8) as Hdiv.
  pose proof (Nat.mod_upper_bound n 8 ltac:(lia)) as Hmod.
  induction d as [|d IH]; intros fuel j sum Hj Hfuel.
  - assert (Hexit : (wrap (Z.of_nat (8 * j) + 7) <? Z.of_nat n) = false).
    { apply Z.ltb_ge. rewrite wrap_small; unfold in_size_t, size_bits in *; lia. }
    replace (n / 8)%nat with j by lia.
    destruct fuel; cbn [dot_loop]; by rewrite Hexit.
  - destruct fuel as [|fuel]; [lia|].
    assert (Hgo : (wrap (Z.of_nat (8 * j) + 7) <? Z.of_nat n) = true).
    { apply Z.ltb_lt. rewrite wrap_small; unfold in_size_t, size_bits in *; lia. }
    cbn [dot_loop]. rewrite Hgo.
    unfold mm512_loadu_pd. change lanes with (Z.of_nat <$> seq 0 8).
    rewrite (collect_rd a (8 * j) 8 0), (collect_rd b (8 * j) 8 0) by lia.
    cbn [mbind outcome_bind].
    replace (wrap (Z.of_nat (8 * j) + 8)) with (Z.of_nat (8 * S j))
      by (rewrite wrap_small; unfold in_size_t, size_bits in *; lia).
    rewrite (IH fuel (S j)) by lia.
    rewrite !Nat.add_0_r. cbn [replicate reshape zip zip_with foldl].
    rewrite !drop_drop.
    by replace (8 * j + 8)%nat with (8 * S j)%nat by lia.
Qed.

(** The scalar loop adds the products of the [d] elements that are left. *)
Lemma dot_cleanup_spec (d : nat) : ∀ (fuel i : nat) (r : float),
  (i + d = n)%nat → (d ≤ fuel)%nat →
  dot_cleanup tail_muladd fuel a b (Z.of_nat n) (Z.of_nat i) r
  = Ok (foldl (λ r xy, tail_muladd r xy.1 xy.2) r
          (zip (take d (drop i a)) (take d (drop i b)))).
Proof.
  induction d as [|d IH]; intros fuel i r Hi Hfuel.
  - assert (Hexit : (Z.of_nat i <? Z.of_nat n) = false) by (apply Z.ltb_ge; lia).
    destruct fuel; cbn [dot_cleanup]; by rewrite Hexit.
  - destruct fuel as [|fuel]; [lia|].
    assert (Hgo : (Z.of_nat i <? Z.of_nat n) = true) by (apply Z.ltb_lt; lia).
    cbn [dot_cleanup]. rewrite Hgo.
    destruct (lookup_lt_is_Some_2 a i) as [x Hx]; [lia|].
    destruct (lookup_lt_is_Some_2 b i) as [y Hy]; [lia|].
    rewrite (rd_ok a i x Hx), (rd_ok b i y Hy). cbn [mbind outcome_bind].
    replace (wrap (Z.of_nat i + 1)) with (Z.of_nat (S i))
      by (rewrite wrap_small; unfold in_size_t, size_bits in *; lia).
    rewrite (IH fuel (S i)) by lia.
    by rewrite (drop_lookup_cons a i x Hx), (drop_lookup_cons b i y Hy).
Qed.

End DotProductFacts.

(** X11.  The dot-product kernel, on arrays of at least [n] elements, for
    every length: it returns (no access is out of bounds), and its result is
    the horizontal sum of the eight lane accumulators, lane [j] having
    accumulated by multiply-add the products at the indices [j], [j + 8],
    [j + 16], ... of the first [n / 8] blocks of eight, to which the last
    [n mod 8] elements are added one after the other by the multiply-add of
    the scalar loop.  The vector multiply-add, the horizontal sum and the
    multiply-add of the scalar loop (which the compiler rounds once or twice)
    are parameters. *)
Theorem dot_product_closed_form
    (fmadd : float → float → float → float) (reduce_add : list float → float)
    (tail_muladd : float → float → float → float)
    (a b : list float) (n : Z) :
  0 ≤ n → 8 * n < 2 ^ size_bits →
  n ≤ Z.of_nat (length a) → n ≤ Z.of_nat (length b) →
  dot_product fmadd reduce_add tail_muladd a b n
  = Ok (dot_product_spec fmadd reduce_add tail_muladd a b (Z.to_nat n)).
Proof.
  intros Hn Hfit Ha Hb. unfold dot_product, dot_product_spec, dot_blocks.
  pose proof (Nat.div_mod_eq (Z.to_nat n) 8) as Hdiv.
  pose proof (dot_loop_spec fmadd a b (Z.to_nat n)
                ltac:(lia) ltac:(lia) ltac:(lia)
                (Z.to_nat n / 8) (Z.to_nat n) 0 mm512_setzero_pd
                ltac:(lia) ltac:(lia)) as Hloop.
  rewrite Z2Nat.id in Hloop by done. change (Z.of_nat (8 * 0)) with 0 in Hloop.
  rewrite Hloop. cbn [mbind outcome_bind].
  change (8 * 0)%nat with 0%nat. rewrite !drop_0.
  pose proof (dot_cleanup_spec tail_muladd a b (Z.to_nat n)
                ltac:(lia) ltac:(lia) ltac:(lia)
                (Z.to_nat n `mod` 8) (Z.to_nat n) (8 * (Z.to_nat n / 8))) as Hclean.
  rewrite Z2Nat.id in Hclean by done. apply Hclean; lia.
Qed.

Lemma dot_product_closed_form_witness :
  let fmadd := λ x y c, PrimFloat.add (PrimFloat.mul x y) c in
  let reduce_add := foldr PrimFloat.add 0%float in
  let tail_muladd := λ r x y, PrimFloat.add r (PrimFloat.mul x y) in
  let a := [1; 2; 3; 4; 5; 6; 7; 8; 9; 10; 11]%float in
  let b := [1; 1; 1; 1; 2; 2; 2; 2; 3; 3]%float in
  0 ≤ 10 ∧ 8 * 10 < 2 ^ size_bits ∧
  10 ≤ Z.of_nat (length a) ∧ 10 ≤ Z.of_nat (length b) ∧
  dot_product fmadd reduce_add tail_muladd a b 10
  = Ok (dot_product_spec fmadd reduce_add tail_muladd a b (Z.to_nat 10)).
Proof.
  intros fmadd reduce_add tail_muladd a b.
  assert (Hn : 0 ≤ 10) by lia.
  assert (Hfit : 8 * 10 < 2 ^ size_bits) by (unfold size_bits; lia).
  assert (Ha : 10 ≤ Z.of_nat (length a)) by (simpl; lia).
  assert (Hb : 10 ≤ Z.of_nat (length b)) by (simpl; lia).
  split; [exact Hn|]. split; [exact Hfit|]. split; [exact Ha|]. split; [exact Hb|].
  exact (dot_product_closed_form fmadd reduce_add tail_muladd a b 10 Hn Hfit Ha Hb).
Defined.
